(** * kanso/permissions.js: validators, markup utilities, the
      initialization-markup registry and the table and div renderers.

    A shallow embedding of [src/commonjs/kanso/permissions.js].

    Conventions of the embedding.
    - JavaScript values that documents, field values and widget arguments
      range over are the trees of [Js.value]; arrays and objects carry the
      reference that [===] compares.  Numbers are the integral ones plus
      NaN; no function of this file does arithmetic on a document value.
    - Strings are sequences of ASCII characters.
    - A function that can [throw] returns an [outcome] (validators) or a
      [result] (renderer methods).
    - The registry object [exports._initialization_markup] is the list of
      its own enumerable properties in creation order; [for ... in]
      visits the names that are array indices first, in ascending order,
      then the others in creation order.  Property reads that miss fall
      through to the prototype, described by the parameter [inherited].
    - A registered function is either one whose call only computes
      markup or an arbitrary one, run by the host.  A widget is the
      markup its [toHTML] returns.
    - What lives in other files of the library ([utils], [widgets],
      [underscore], the forms layer that drives a renderer) is a parameter
      or a definition marked as modelled from the specification. *)

From Stdlib Require Import String Ascii List ZArith Bool Lia DecimalString.
Import ListNotations.
Local Open Scope string_scope.

(* ================================================================== *)
(** ** JavaScript values *)
(* ================================================================== *)

Module Js.

#[warnings="-register-all"]
Inductive value : Type :=
| VUndefined
| VNull
| VBool (b : bool)
| VNum (n : Z)
| VNaN
| VStr (s : string)
| VArr (ref : nat) (elems : list value)
| VObj (ref : nat) (props : list (string * value)).

(** ToBoolean: what [if (v)] and [!v] test. *)
Definition truthy (v : value) : bool :=
  match v with
  | VUndefined | VNull | VNaN => false
  | VBool b => b
  | VNum n => negb (n =? 0)%Z
  | VStr s => negb (s =? "")
  | VArr _ _ | VObj _ _ => true
  end.

(** The strict equality [a === b]: by value on primitives (NaN equals
    nothing), by reference on arrays and objects. *)
Definition strict_eq (a b : value) : bool :=
  match a, b with
  | VUndefined, VUndefined => true
  | VNull, VNull => true
  | VBool x, VBool y => Bool.eqb x y
  | VNum x, VNum y => (x =? y)%Z
  | VStr x, VStr y => (x =? y)
  | VArr r _, VArr r' _ => (r =? r')%nat
  | VObj r _, VObj r' _ => (r =? r')%nat
  | _, _ => false
  end.

(** [a !== b] *)
Definition strict_neq (a b : value) : bool := negb (strict_eq a b).

(** The three values the validators call empty-like. *)
Definition empty_like (v : value) : bool :=
  match v with
  | VNull | VUndefined => true
  | VStr s => (s =? "")
  | _ => false
  end.

(** [Array.prototype.join] on an array of strings. *)
Definition join (sep : string) (l : list string) : string :=
  String.concat sep l.

(** [Array.prototype.slice(start)]: a negative [start] counts from the
    end of the array. *)
Definition slice {A : Type} (start : Z) (l : list A) : list A :=
  let len := Z.of_nat (List.length l) in
  let k := if (start <? 0)%Z then Z.max (len + start) 0 else Z.min start len in
  skipn (Z.to_nat k) l.

(** ToString of an integral number. *)
Definition string_of_Z (n : Z) : string :=
  NilZero.string_of_int (Z.to_int n).

(** [String.prototype.toUpperCase] on a string of ASCII characters: the
    letters a-z are the only ones it changes.  Outside ASCII the method
    maps other letters too and may change the length; statements about
    lengths that rest on this definition are for ASCII strings. *)
Definition upper_ascii (c : ascii) : ascii :=
  let n := nat_of_ascii c in
  if (97 <=? n)%nat && (n <=? 122)%nat then ascii_of_nat (n - 32) else c.

Fixpoint toUpperCase (s : string) : string :=
  match s with
  | EmptyString => EmptyString
  | String c s' => String (upper_ascii c) (toUpperCase s')
  end.

(** [s.replace(/_/g, ' ')] *)
Fixpoint replace_underscores (s : string) : string :=
  match s with
  | EmptyString => EmptyString
  | String c s' =>
      String (if Ascii.eqb c "_"%char then " "%char else c)
             (replace_underscores s')
  end.

(** [s.substr(start, length)] and [s.substr(start)] for [start >= 0]. *)
Definition substr (s : string) (start len : nat) : string :=
  String.substring start len s.

Definition substr_from (s : string) (start : nat) : string :=
  String.substring start (String.length s - start) s.

(** [name.substr(0, 1).toUpperCase() + name.substr(1).replace(/_/g, ' ')],
    the expression [labelText] and both [beginGroup]s share. *)
Definition capitalize (name : string) : string :=
  toUpperCase (substr name 0 1) ++ replace_underscores (substr_from name 1).

(** The double quote and the newline, as one-character strings. *)
Definition dq : string := String (ascii_of_nat 34) EmptyString.
Definition nl : string := String (ascii_of_nat 10) EmptyString.

(** An attribute value between double quotes. *)
Definition quoted (s : string) : string := dq ++ s ++ dq.

End Js.

(* ================================================================== *)
(** ** Validators *)
(* ================================================================== *)

Module Validators.
Import Js.

(** What a call of a validator does: return normally, or throw
    [new Error(message)]. *)
Inductive outcome : Type :=
| Returns
| Throws (message : string).

(** [userCtx]: an object read through its [name] property only; an
    absent name is [VUndefined]. *)
Record UserCtx : Type := { name : value }.

(** A validator is called with
    [(newDoc, oldDoc, newValue, oldValue, userCtx)]. *)
Definition validator : Type :=
  value -> value -> value -> value -> UserCtx -> outcome.

Definition matchUsername (_ : unit) : validator :=
  fun newDoc oldDoc newVal oldVal userCtx =>
    let name := name userCtx in
    if strict_neq name newVal then
      if (strict_neq name VNull && strict_neq name VUndefined
            && strict_neq name (VStr ""))
         || (strict_neq newVal VNull && strict_neq newVal VUndefined
               && strict_neq newVal (VStr ""))
      then Throws "Field does not match your username"
      else Returns
    else Returns.

Definition uneditable (_ : unit) : validator :=
  fun newDoc oldDoc newValue oldValue userCtx =>
    if truthy oldDoc then
      if strict_neq newValue oldValue
      then Throws "Field cannot be edited once created"
      else Returns
    else Returns.

(** The [path] argument of [usernameMatchesField]: one segment, or an
    array of segments. *)
Inductive path_arg : Type :=
| Segment (s : string)
| Segments (l : list string).

(** [if (!utils.isArray(path)) { path = [path]; }]: a single segment
    becomes the one-element array; [utils.isArray], from another file of
    the library, is the test of the constructor here. *)
Definition as_array (path : path_arg) : list string :=
  match path with
  | Segments l => l
  | Segment s => [s]
  end.

Section UsernameMatchesField.

(** [utils.getPropertyPath(obj, path)], defined in another file of the
    library. *)
Variable getPropertyPath : value -> list string -> value.

Definition usernameMatchesField (path : path_arg) : validator :=
  let path := as_array path in
  fun newDoc oldDoc newValue oldValue userCtx =>
    let field := getPropertyPath newDoc path in
    if strict_neq (name userCtx) field
    then Throws ("username does not match field: " ++ join "." path)
    else Returns.

End UsernameMatchesField.

(** Own-property read [obj[key]] on a document value; [undefined] when
    the property is absent or the value has no such property. *)
Fixpoint get_prop (props : list (string * value)) (key : string) : value :=
  match props with
  | [] => VUndefined
  | (k, v) :: rest => if (k =? key) then v else get_prop rest key
  end.

(** Modelled from the spec: [utils.getPropertyPath] is not in this file;
    the spec describes it as resolving a dotted/array path against a
    document object, [["a","b"]] resolving [newDoc.a.b]. *)
Fixpoint getPropertyPath_spec (obj : value) (path : list string) : value :=
  match path with
  | [] => obj
  | key :: rest =>
      match obj with
      | VObj _ props => getPropertyPath_spec (get_prop props key) rest
      | _ => VUndefined
      end
  end.

End Validators.

(* ================================================================== *)
(** ** Markup utilities and the initialization-markup registry *)
(* ================================================================== *)

Module Render.
Import Js.

(** What the rest of the library and the JavaScript host contribute.
    [inherited name] tells whether a read of [name] on an object literal
    that has no own property of that name finds a truthy value through
    the prototype chain (as for [constructor] or [toString]).
    [scriptTagForInit] is [widgets.scriptTagForInit], from another file
    of the library. *)
Class Host : Type := {
  inherited : string -> bool;
  scriptTagForInit : string -> string -> string
}.

(** An element of an [errors] array: its [message] property, when it
    has one, and what its [toString()] returns. *)
Record Error : Type := {
  message : option string;
  toString : string
}.

(** The optional attributes [label], [description], [hint] and
    [required] that the utilities read from a field descriptor and from a
    field type alike; an absent string attribute is [None], an absent
    [required] is [false]. *)
Class Described (A : Type) : Type := {
  label : A -> option string;
  description : A -> option string;
  hint : A -> option string;
  required : A -> bool
}.

Module Widget.
(** A widget, over the type [F] of the field descriptors that its
    [toHTML(name, value, raw, field)] receives.  A widget is taken for
    the markup it returns: what else a widget's [toHTML] may do (such as
    registering initialization markup) is outside this record. *)
Record t (F : Type) : Type := {
  type : string;
  toHTML : string -> value -> value -> F -> string
}.
Arguments type {F} _.
Arguments toHTML {F} _ _ _ _ _.
End Widget.

(** Field descriptors [F]: they are described, carry a [widget] and a
    [type] (a described field type with a [name]). *)
Class Form (F : Type) : Type := {
  FieldType : Type;
  field_described :: Described F;
  type_described :: Described FieldType;
  widget : F -> Widget.t F;
  type : F -> FieldType;
  name : FieldType -> string
}.

(** ToBoolean of an optional string attribute: absent and empty are
    falsy. *)
Definition present (o : option string) : option string :=
  match o with
  | Some s => if (s =? "") then None else Some s
  | None => None
  end.

(** An absent [errors] argument and an empty array behave alike in every
    function of the file, so [errors] is a list. *)
Definition errorHTML (errors : list Error) : string :=
  match errors with
  | [] => ""
  | _ :: _ =>
      let html := "<ul class=" ++ quoted "errors" ++ ">" in
      let html :=
        fold_left
          (fun html e =>
             html ++ ("<li class=" ++ quoted "error_msg" ++ ">"
                      ++ match present (message e) with
                         | Some m => m
                         | None => toString e
                         end
                      ++ "</li>"))
          errors html in
      html ++ "</ul>"
  end.

Section Utilities.
Context {A : Type} `{Described A}.

Definition labelText (field : A) (name : string) : string :=
  match present (label field) with
  | Some l => l
  | None => capitalize name
  end.

(** [id] is optional; [id || 'id_' + name] takes [id] when it is truthy. *)
Definition labelHTML (field : A) (name : string) (id : option string)
  : string :=
  "<label for="
    ++ quoted (match present id with
               | Some i => i
               | None => "id_" ++ name
               end)
    ++ ">" ++ labelText field name ++ "</label>".

Definition descriptionHTML (obj : A) : string :=
  match present (description obj) with
  | Some d => "<div class=" ++ quoted "description" ++ ">" ++ d ++ "</div>"
  | None => ""
  end.

Definition hintHTML (obj : A) : string :=
  match present (hint obj) with
  | Some h => "<div class=" ++ quoted "hint" ++ ">" ++ h ++ "</div>"
  | None => ""
  end.

Definition classes (field : A) (errors : list Error) : list string :=
  let r := ["field"] in
  let r := match errors with [] => r | _ :: _ => (r ++ ["error"])%list end in
  let r := if required field then (r ++ ["required"])%list else r in
  r.

End Utilities.

(** A registered value: a string of static markup, or a function of no
    argument.  [Generator f] is a function whose call only computes its
    markup, as the renderers' own [initializationMarkupForEmbed];
    [Function fn] is any other function, known by its reference [fn]:
    what a call of it does (it may read and change the state, return
    another string each time, or throw) is for the host to say. *)
Inductive entry : Type :=
| Markup (s : string)
| Generator (f : unit -> string)
| Function (fn : nat).

(** ToBoolean of a registered value: only the empty string is falsy. *)
Definition entry_truthy (m : entry) : bool :=
  match m with
  | Markup s => negb (s =? "")
  | Generator _ => true
  | Function _ => true
  end.

(** The own properties of [exports._initialization_markup], in creation
    order. *)
Definition Registry : Type := list (string * entry).

(** The state the file's functions act on: the registry of the module
    and the [depth] of the renderer instance. *)
Record world : Type := {
  _initialization_markup : Registry;
  depth : Z
}.

(** The result of a call: a value, or a thrown exception. *)
Inductive result (A : Type) : Type :=
| Val (a : A)
| Exn (message : string).
Arguments Val {A} _.
Arguments Exn {A} _.

(** Computations over the state that may throw. *)
Definition JS (A : Type) : Type := world -> result A * world.

Definition ret {A : Type} (a : A) : JS A := fun w => (Val a, w).

Definition bind {A B : Type} (m : JS A) (k : A -> JS B) : JS B :=
  fun w =>
    match m w with
    | (Val a, w') => k a w'
    | (Exn e, w') => (Exn e, w')
    end.

Definition throw {A : Type} (e : string) : JS A := fun w => (Exn e, w).

Notation "x <- m ;; k" := (bind m (fun x => k))
  (at level 61, m at next level, right associativity).
Notation "m ;; k" := (bind m (fun _ => k))
  (at level 61, right associativity).

Definition get_depth : JS Z := fun w => (Val (depth w), w).

Definition set_depth (d : Z) : JS unit :=
  fun w =>
    (Val tt, {| _initialization_markup := _initialization_markup w;
                depth := d |}).

Definition get_registry : JS Registry :=
  fun w => (Val (_initialization_markup w), w).

Definition set_registry (reg : Registry) : JS unit :=
  fun w => (Val tt, {| _initialization_markup := reg; depth := depth w |}).

(** The own property [name] of the registry, if any. *)
Fixpoint own (reg : Registry) (name : string) : option entry :=
  match reg with
  | [] => None
  | (k, m) :: rest => if (k =? name) then Some m else own rest name
  end.

(** [registry[name] = value]: an existing own property keeps its place,
    a new one comes last. *)
Fixpoint put (reg : Registry) (name : string) (value : entry) : Registry :=
  match reg with
  | [] => [(name, value)]
  | (k, m) :: rest =>
      if (k =? name) then (k, value) :: rest
      else (k, m) :: put rest name value
  end.

(** ToBoolean of the read [registry[name]]: the own property when there
    is one, else what the prototype chain gives. *)
Definition reads_truthy `{Host} (reg : Registry) (name : string) : bool :=
  match own reg name with
  | Some m => entry_truthy m
  | None => inherited name
  end.

Definition registerInitializationMarkup `{Host}
  (name : string) (value : entry) : JS unit :=
  reg <- get_registry ;;
  if negb (reads_truthy reg name)
  then set_registry (put reg name value)
  else ret tt.

(** What a call [m()] of the function with reference [fn] does. *)
Class Functions : Type := {
  invoke : nat -> JS string
}.

(** The array index a property name stands for, if any: the canonical
    decimal numeral of a number below 2^32 - 1. *)
Definition array_index (name : string) : option N :=
  match NilEmpty.uint_of_string name with
  | Some d =>
      let n := N.of_uint d in
      if (NilZero.string_of_uint (N.to_uint n) =? name)
         && (n <? 4294967295)%N
      then Some n
      else None
  | None => None
  end.

(** Insertion of an indexed property among those already in ascending
    order of index. *)
Fixpoint insert_index (n : N) (km : string * entry)
  (l : list (N * (string * entry))) : list (N * (string * entry)) :=
  match l with
  | [] => [(n, km)]
  | (n', km') :: rest =>
      if (n <? n')%N then (n, km) :: l
      else (n', km') :: insert_index n km rest
  end.

(** The properties whose name is an array index, in ascending order of
    index. *)
Fixpoint index_entries (reg : Registry) : list (N * (string * entry)) :=
  match reg with
  | [] => []
  | (k, m) :: rest =>
      match array_index k with
      | Some n => insert_index n (k, m) (index_entries rest)
      | None => index_entries rest
      end
  end.

(** The properties whose name is not an array index, in creation
    order. *)
Definition other_entries (reg : Registry) : Registry :=
  filter (fun km => match array_index (fst km) with
                    | Some _ => false
                    | None => true
                    end) reg.

(** The order in which [for (var key in registry)] visits the own
    properties: the array indices first, in ascending numeric order, then
    the other names in creation order. *)
Definition enumerate (reg : Registry) : Registry :=
  (map snd (index_entries reg) ++ other_entries reg)%list.

(** The body of the [for ... in] loop for one key: the read
    [markup_list[key]] of the registry as it is by then, [m()] for a
    function, [m += ''] otherwise, then [rv += ("\n" + m)].  A property
    deleted before its turn is not visited. *)
Definition emit `{Functions} (rv : string) (key : string) : JS string :=
  markup_list <- get_registry ;;
  match own markup_list key with
  | None => ret rv
  | Some m =>
      m <- match m with
           | Generator f => ret (f tt)
           | Function fn => invoke fn
           | Markup s => ret (s ++ "")
           end ;;
      ret (rv ++ (nl ++ m))
  end.

(** The loop over the keys that the enumeration started with; a property
    added during the loop is not visited. *)
Fixpoint for_in `{Functions} (keys : list string) (rv : string)
  : JS string :=
  match keys with
  | [] => ret rv
  | key :: rest => rv <- emit rv key ;; for_in rest rv
  end.

Definition generateInitializationMarkup `{Functions} : JS string :=
  let rv := "" in
  markup_list <- get_registry ;;
  for_in (map fst (enumerate markup_list)) rv.

(* ================================================================== *)
(** ** The table renderer *)
(* ================================================================== *)

(** Modelled from the spec: [underscore] is not in this file.  [_.last]
    gives the last element of an array, [undefined] (here [None]) on an
    empty one. *)
Definition _last (path : list string) : option string :=
  List.last (map Some path) None.

(** Modelled from the spec: [underscore] is not in this file.  [_.each]
    visits the elements of an array in order; the renderers hand it the
    value of an embedList field, and an absent value is not iterated. *)
Definition _each (obj : value) : list value :=
  match obj with
  | VArr _ elems => elems
  | _ => []
  end.

Section Renderers.
Context `{Host} {F : Type} `{Form F}.

Definition table_start : JS string :=
  set_depth 0 ;;
  ret ("<table class=" ++ quoted "render-table" ++ ">").

(** [name.substr] throws a TypeError when [_.last(path)] is undefined;
    [depth] has been incremented by then. *)
Definition table_beginGroup (path : list string) : JS string :=
  d <- get_depth ;;
  set_depth (d + 1)%Z ;;
  let name := _last path in
  d <- get_depth ;;
  let css_class := "level-" ++ string_of_Z d in
  match name with
  | None => throw "TypeError"
  | Some name =>
      ret ("<tbody class=" ++ quoted ("head " ++ css_class) ++ ">"
           ++ "<tr>"
           ++ "<th colspan=" ++ quoted "3" ++ ">"
           ++ capitalize name
           ++ "</th>"
           ++ "</tr>"
           ++ "</tbody>"
           ++ "<tbody class=" ++ quoted ("group " ++ css_class) ++ ">")
  end.

Definition table_endGroup (path : list string) : JS string :=
  d <- get_depth ;;
  set_depth (d - 1)%Z ;;
  ret "</tbody>".

Definition table_field (field : F) (path : list string)
  (value raw : value) (errors : list Error) : JS string :=
  let name := join "." path in
  d <- get_depth ;;
  let caption := join " " (slice d path) in
  if (Widget.type (widget field) =? "hidden")
  then ret (Widget.toHTML (widget field) name value raw field)
  else
    ret ("<tr class=" ++ quoted (join " " (classes field errors)) ++ ">"
         ++ "<th>"
         ++ labelHTML field caption None
         ++ descriptionHTML field
         ++ "</th>"
         ++ "<td>"
         ++ Widget.toHTML (widget field) name value raw field
         ++ hintHTML field
         ++ "</td>"
         ++ "<td class=" ++ quoted "errors" ++ ">"
         ++ errorHTML errors
         ++ "</td>"
         ++ "</tr>").

(** [this.initializationMarkupForEmbed] of the table renderer. *)
Definition table_initializationMarkupForEmbed : unit -> string :=
  fun _ => scriptTagForInit "kanso/embed" "bind".

Definition table_embed (field : F) (path : list string)
  (value raw : value) (errors : list Error) : JS string :=
  let name := join "." path in
  d <- get_depth ;;
  let caption := join " " (slice d path) in
  registerInitializationMarkup
    "built-in embed/embedList"
    (Generator table_initializationMarkupForEmbed) ;;
  ret ("<tr class=" ++ quoted "embedded" ++ ">"
       ++ "<th>"
       ++ labelHTML (type field) caption None
       ++ descriptionHTML (type field)
       ++ "</th>"
       ++ "<td class=" ++ quoted "field"
       ++ " rel=" ++ quoted (Render.name (type field)) ++ ">"
       ++ "<table rel=" ++ quoted name ++ "><tbody><tr><td>"
       ++ Widget.toHTML (widget field) name value raw field
       ++ "</td>"
       ++ "<td class=" ++ quoted "actions" ++ "></td>"
       ++ "</tr></tbody></table>"
       ++ "<td class=" ++ quoted "errors" ++ ">"
       ++ errorHTML errors
       ++ "</td>"
       ++ "</tr>").

(** The markup [table.embedList] starts from, before the loop. *)
Definition table_list_open (field : F) (name caption : string) : string :=
  "<tr class=" ++ quoted "embeddedlist" ++ ">"
  ++ "<th>"
  ++ labelHTML (type field) caption None
  ++ descriptionHTML (type field)
  ++ "</th>"
  ++ "<td class=" ++ quoted "field"
  ++ " rel=" ++ quoted (Render.name (type field)) ++ ">"
  ++ "<table rel=" ++ quoted name ++ "><tbody>".

(** What one iteration of the [_.each] callback appends, around the
    markup of the widget. *)
Definition table_unit (markup : string) : string :=
  "<tr><td>"
  ++ markup
  ++ "</td><td class=" ++ quoted "actions" ++ ">"
  ++ "</td></tr>".

(** One iteration of the [_.each] callback of [table.embedList]. *)
Definition table_item (field : F) (name : string) (raw : value)
  (html : string) (v : value) : string :=
  html ++ table_unit (Widget.toHTML (widget field) name v raw field).

(** The markup [table.embedList] appends after the loop. *)
Definition table_list_close (errors : list Error) : string :=
  "</tbody></table></td>"
  ++ "<td class=" ++ quoted "errors" ++ ">"
  ++ errorHTML errors
  ++ "</td>"
  ++ "</tr>".

Definition table_embedList (field : F) (path : list string)
  (value raw : value) (errors : list Error) : JS string :=
  let name := join "." path in
  d <- get_depth ;;
  let caption := join " " (slice d path) in
  registerInitializationMarkup
    "built-in embed/embedList"
    (Generator table_initializationMarkupForEmbed) ;;
  let html := table_list_open field name caption in
  let html := fold_left (table_item field name raw) (_each value) html in
  let html := html ++ table_list_close errors in
  ret html.

Definition table_end : JS string := ret "</table>".

(* ================================================================== *)
(** ** The div renderer *)
(* ================================================================== *)

Definition div_start : JS string :=
  set_depth 0 ;;
  ret ("<div class=" ++ quoted "render-div" ++ ">").

Definition div_beginGroup (path : list string) : JS string :=
  d <- get_depth ;;
  set_depth (d + 1)%Z ;;
  let name := _last path in
  d <- get_depth ;;
  let css_class := "level-" ++ string_of_Z d in
  match name with
  | None => throw "TypeError"
  | Some name =>
      ret ("<div class=" ++ quoted ("group " ++ css_class) ++ ">"
           ++ "<div class=" ++ quoted "heading" ++ ">"
           ++ capitalize name
           ++ "</div>")
  end.

Definition div_endGroup (path : list string) : JS string :=
  d <- get_depth ;;
  set_depth (d - 1)%Z ;;
  ret "</div>".

Definition div_field (field : F) (path : list string)
  (value raw : value) (errors : list Error) : JS string :=
  let name := join "." path in
  d <- get_depth ;;
  let caption := join " " (slice d path) in
  if (Widget.type (widget field) =? "hidden")
  then ret (Widget.toHTML (widget field) name value raw field)
  else
    ret ("<div class=" ++ quoted (join " " (classes field errors)) ++ ">"
         ++ "<div class=" ++ quoted "scalar" ++ ">"
         ++ "<div class=" ++ quoted "label" ++ ">"
         ++ "<label for=" ++ quoted name ++ ">"
         ++ labelHTML field caption None
         ++ descriptionHTML field
         ++ "</label>"
         ++ "</div>"
         ++ "<div class=" ++ quoted "content" ++ ">"
         ++ "<div class=" ++ quoted "inner" ++ ">"
         ++ Widget.toHTML (widget field) name value raw field
         ++ "</div>"
         ++ "<div class=" ++ quoted "hint" ++ ">"
         ++ hintHTML field
         ++ "</div>"
         ++ "<div class=" ++ quoted "errors" ++ ">"
         ++ errorHTML errors
         ++ "</div>"
         ++ "</div>"
         ++ "</div>"
         ++ "</div>").

Definition div_embed (field : F) (path : list string)
  (value raw : value) (errors : list Error) : JS string :=
  let name := join "." path in
  d <- get_depth ;;
  let caption := join " " (slice d path) in
  ret ("<div class=" ++ quoted (join " " (classes (type field) errors)) ++ ">"
       ++ "<div class=" ++ quoted "embedded" ++ ">"
       ++ "<div class=" ++ quoted "label" ++ ">"
       ++ "<label for=" ++ quoted name ++ ">"
       ++ labelHTML (type field) caption None
       ++ descriptionHTML (type field)
       ++ "</label>"
       ++ "</div>"
       ++ "<div class=" ++ quoted "content"
       ++ " rel=" ++ quoted (Render.name (type field)) ++ ">"
       ++ "<div class=" ++ quoted "inner" ++ " rel=" ++ quoted name ++ ">"
       ++ Widget.toHTML (widget field) name value raw field
       ++ "</div>"
       ++ "<div class=" ++ quoted "actions" ++ ">"
       ++ "</div>"
       ++ "<div class=" ++ quoted "errors" ++ ">"
       ++ errorHTML errors
       ++ "</div>"
       ++ "</div>"
       ++ "</div>").

(** The markup [div.embedList] starts from, before the loop. *)
Definition div_list_open (field : F) (name caption : string)
  (errors : list Error) : string :=
  "<div class=" ++ quoted (join " " (classes (type field) errors)) ++ ">"
  ++ "<div class=" ++ quoted "embeddedlist" ++ ">"
  ++ "<div class=" ++ quoted "label" ++ ">"
  ++ "<label for=" ++ quoted name ++ ">"
  ++ labelHTML (type field) caption None
  ++ descriptionHTML (type field)
  ++ "</label>"
  ++ "</div>"
  ++ "<div class=" ++ quoted "content"
  ++ " rel=" ++ quoted (Render.name (type field)) ++ ">".

(** What one iteration of the [_.each] callback appends, around the
    markup of the widget. *)
Definition div_unit (name markup : string) : string :=
  "<div class=" ++ quoted "item" ++ " rel=" ++ quoted name ++ ">"
  ++ "<div class=" ++ quoted "inner" ++ ">"
  ++ markup
  ++ "</div>"
  ++ "<div class=" ++ quoted "actions" ++ ">"
  ++ "</div>"
  ++ "</div>".

(** One iteration of the [_.each] callback of [div.embedList]: the
    callback's [v] is not used, the widget is handed [value]. *)
Definition div_item (field : F) (name : string) (value raw : Js.value)
  (html : string) (v : Js.value) : string :=
  html ++ div_unit name (Widget.toHTML (widget field) name value raw field).

(** The markup [div.embedList] appends after the loop. *)
Definition div_list_close (errors : list Error) : string :=
  "<div class=" ++ quoted "errors" ++ ">"
  ++ errorHTML errors
  ++ "</div>"
  ++ "</div>"
  ++ "</div>"
  ++ "</div>".

Definition div_embedList (field : F) (path : list string)
  (value raw : value) (errors : list Error) : JS string :=
  let name := join "." path in
  d <- get_depth ;;
  let caption := join " " (slice d path) in
  let html := div_list_open field name caption errors in
  let html := fold_left (div_item field name value raw) (_each value) html in
  let html := html ++ div_list_close errors in
  ret html.

Definition div_end : JS string := ret "</div>".

(* ================================================================== *)
(** ** The renderer contract and its driver *)
(* ================================================================== *)

(** The seven methods a renderer exposes to the forms layer. *)
Record Renderer : Type := {
  start : JS string;
  beginGroup : list string -> JS string;
  endGroup : list string -> JS string;
  field : F -> list string -> value -> value -> list Error -> JS string;
  embed : F -> list string -> value -> value -> list Error -> JS string;
  embedList : F -> list string -> value -> value -> list Error -> JS string;
  end_ : JS string
}.

Definition table : Renderer := {|
  start := table_start;
  beginGroup := table_beginGroup;
  endGroup := table_endGroup;
  field := table_field;
  embed := table_embed;
  embedList := table_embedList;
  end_ := table_end
|}.

Definition div : Renderer := {|
  start := div_start;
  beginGroup := div_beginGroup;
  endGroup := div_endGroup;
  field := div_field;
  embed := div_embed;
  embedList := div_embedList;
  end_ := div_end
|}.

Inductive variant : Type := Table | Div.

Definition renderer (v : variant) : Renderer :=
  match v with
  | Table => table
  | Div => div
  end.

(** One call of the forms layer on a renderer, between [start()] and
    [end()]. *)
Inductive visit : Type :=
| BeginGroup (path : list string)
| EndGroup (path : list string)
| Field (field : F) (path : list string) (value raw : value)
    (errors : list Error)
| Embed (field : F) (path : list string) (value raw : value)
    (errors : list Error)
| EmbedList (field : F) (path : list string) (value raw : value)
    (errors : list Error).

Definition call (r : Renderer) (c : visit) : JS string :=
  match c with
  | BeginGroup path => beginGroup r path
  | EndGroup path => endGroup r path
  | Field f path value raw errors => field r f path value raw errors
  | Embed f path value raw errors => embed r f path value raw errors
  | EmbedList f path value raw errors => embedList r f path value raw errors
  end.

(** Modelled from the spec: the forms layer that drives a renderer is
    not in this file.  It invokes the visit methods in document order and
    concatenates the returned fragments in call order; an exception ends
    the traversal. *)
Fixpoint traverse (r : Renderer) (cs : list visit) : JS string :=
  match cs with
  | [] => ret ""
  | c :: rest =>
      html <- call r c ;;
      more <- traverse r rest ;;
      ret (html ++ more)
  end.

(** Modelled from the spec: a render pass is [start()], the visits, then
    [end()]. *)
Definition render (r : Renderer) (cs : list visit) : JS string :=
  opening <- start r ;;
  body <- traverse r cs ;;
  closing <- end_ r ;;
  ret (opening ++ body ++ closing).

(** The states after each call of a traversal, up to and including the
    call that throws, if any. *)
Fixpoint trace (r : Renderer) (cs : list visit) (w : world) : list world :=
  match cs with
  | [] => []
  | c :: rest =>
      match call r c w with
      | (Val _, w') => w' :: trace r rest w'
      | (Exn _, w') => [w']
      end
  end.

(** The state in which [end()] is called: the one the traversal leaves
    when no call throws. *)
Fixpoint finish (r : Renderer) (cs : list visit) (w : world) : option world :=
  match cs with
  | [] => Some w
  | c :: rest =>
      match call r c w with
      | (Val _, w') => finish r rest w'
      | (Exn _, _) => None
      end
  end.

(** Whether a visit opens or closes a group. *)
Definition is_leaf (c : visit) : bool :=
  match c with
  | BeginGroup _ | EndGroup _ => false
  | _ => true
  end.

(** Whether a visit is to an embed or an embedList field. *)
Definition is_embed (c : visit) : bool :=
  match c with
  | Embed _ _ _ _ _ | EmbedList _ _ _ _ _ => true
  | _ => false
  end.

(** Properly balanced and nested sequences of visits: the
    [beginGroup]/[endGroup] calls pair up like brackets, each [endGroup]
    with the path of its [beginGroup]. *)
Inductive balanced : list visit -> Prop :=
| balanced_nil : balanced []
| balanced_leaf c cs :
    is_leaf c = true -> balanced cs -> balanced (c :: cs)
| balanced_group path inner rest :
    balanced inner -> balanced rest ->
    balanced (BeginGroup path :: inner ++ EndGroup path :: rest).

(** Every group of the sequence has a name to head it. *)
Definition groups_named (cs : list visit) : bool :=
  forallb (fun c => match c with
                    | BeginGroup [] => false
                    | _ => true
                    end) cs.

End Renderers.

Arguments Renderer F : clear implicits.
Arguments visit F : clear implicits.

End Render.

(* ================================================================== *)
(** ** A concrete host and concrete field descriptors *)
(* ================================================================== *)

Module Sample.
Import Js Render.

(** The property names of [Object.prototype] in an ECMAScript 5 host,
    with the accessors most engines add. *)
Definition Object_prototype : list string :=
  ["constructor"; "toString"; "toLocaleString"; "valueOf";
   "hasOwnProperty"; "isPrototypeOf"; "propertyIsEnumerable";
   "__proto__"; "__defineGetter__"; "__defineSetter__";
   "__lookupGetter__"; "__lookupSetter__"].

(** A host for the examples; its [scriptTagForInit] is a stand-in that
    names the module and the function to run. *)
#[export] Instance host : Host := {|
  inherited := fun name => existsb (String.eqb name) Object_prototype;
  scriptTagForInit := fun module function =>
    "<script>" ++ module ++ ":" ++ function ++ "</script>"
|}.

(** The functions of the examples: the one with reference 0 registers
    markup of its own when it is called, the one with reference 1 only
    returns its markup, any other throws. *)
#[export] Instance functions : Functions := {|
  invoke := fun fn =>
    match fn with
    | 0%nat =>
        registerInitializationMarkup "late" (Markup "<late>") ;; ret "<f>"
    | 1%nat => ret "<g>"
    | _ => throw "Error"
    end
|}.

(** What the functions of the examples return. *)
Definition bodies (fn : nat) : string :=
  match fn with
  | 0%nat => "<f>"
  | 1%nat => "<g>"
  | _ => ""
  end.

Record FieldTypeDesc : Type := {
  ft_label : option string;
  ft_description : option string;
  ft_required : bool;
  ft_name : string
}.

Record FieldDesc : Type := {
  f_label : option string;
  f_description : option string;
  f_hint : option string;
  f_required : bool;
  f_widget_type : string;
  f_type : FieldTypeDesc
}.

(** How the example widget shows a value. *)
Definition show (v : value) : string :=
  match v with
  | VStr s => s
  | VArr _ _ => "[array]"
  | _ => ""
  end.

(** An input widget of the given type tag. *)
Definition input (tag : string) : Widget.t FieldDesc := {|
  Widget.type := tag;
  Widget.toHTML := fun name value raw field =>
    "<input name=" ++ quoted name ++ " value=" ++ quoted (show value) ++ ">"
|}.

#[export] Instance described_type : Described FieldTypeDesc := {|
  label := ft_label;
  description := ft_description;
  hint := fun _ => None;
  required := ft_required
|}.

#[export] Instance described_field : Described FieldDesc := {|
  label := f_label;
  description := f_description;
  hint := f_hint;
  required := f_required
|}.

#[export] Instance form : Form FieldDesc := {|
  FieldType := FieldTypeDesc;
  field_described := described_field;
  type_described := described_type;
  widget := fun f => input (f_widget_type f);
  type := f_type;
  name := ft_name
|}.

Definition comment_type : FieldTypeDesc := {|
  ft_label := None; ft_description := None; ft_required := false;
  ft_name := "comment"
|}.

Definition text_field : FieldDesc := {|
  f_label := None; f_description := None; f_hint := None;
  f_required := true; f_widget_type := "text"; f_type := comment_type
|}.

Definition hidden_field : FieldDesc := {|
  f_label := Some "Secret"; f_description := Some "not shown";
  f_hint := Some "nor this"; f_required := true;
  f_widget_type := "hidden"; f_type := comment_type
|}.

(** The state at load time: an empty registry. *)
Definition fresh : world := {| _initialization_markup := []; depth := 0 |}.

(** The registry after the empty string and then "B" were registered
    under one name. *)
Definition twice_registered : world :=
  snd (registerInitializationMarkup "k" (Markup "B")
         (snd (registerInitializationMarkup "k" (Markup "") fresh))).

(** The value of an embedList field with two elements. *)
Definition xy : value := VArr 0 [VStr "x"; VStr "y"].

(** The unit the div renderer builds around the sample widget's markup
    for [v], in the field named "b". *)
Definition div_unit_of (v : value) : string :=
  div_unit "b" (Widget.toHTML (widget text_field) "b" v VNull text_field).

(** The registry after "b" and then "1" were registered. *)
Definition index_after_name : world :=
  snd (registerInitializationMarkup "1" (Markup "<one>")
         (snd (registerInitializationMarkup "b" (Markup "<b>") fresh))).

(** The registry after the function with reference 0 was registered. *)
Definition registering_function : world :=
  snd (registerInitializationMarkup "f" (Function 0) fresh).

(** A registry of static markup, a function that only returns markup
    and a generator, one of them under an array index. *)
Definition mixed_registry : world := {|
  _initialization_markup :=
    [("a", Markup "<a>"); ("g", Function 1);
     ("2", Generator (fun _ => "<two>"))];
  depth := 0
|}.

(** Two registrations under distinct names. *)
Definition two_entries : list (string * entry) :=
  [("first", Markup "<a>"); ("second", Generator (fun _ => "<b>"))].

(** A group closed that was never opened. *)
Definition unopened_group : list (visit FieldDesc) := [EndGroup ["a"]].

(** A document whose [owner] is "alice". *)
Definition alice_doc : value := VObj 1 [("owner", VStr "alice")].

(** A property lookup that knows the [owner] of [alice_doc] only. *)
Definition owner_lookup (obj : value) (path : list string) : value :=
  match obj, path with
  | VObj _ [("owner", v)], ["owner"] => v
  | _, _ => VUndefined
  end.

(** A group holding one field. *)
Definition address_form : list (visit FieldDesc) :=
  [BeginGroup ["root"; "address"];
   Field text_field ["root"; "address"; "city"] (VStr "NYC") (VStr "NYC") [];
   EndGroup ["root"; "address"]].

(** An embed field followed by an embedList field. *)
Definition comments_form : list (visit FieldDesc) :=
  [Embed text_field ["a"] (VStr "x") (VStr "x") [];
   EmbedList text_field ["b"] xy VNull []].

End Sample.

(* ================================================================== *)
(** ** The specification's reading of the registry *)
(* ================================================================== *)

Module Spec.
Import Js Render.

(** The markup of one entry as the specification words it: the entry
    invoked if it is callable, otherwise its string form; [body fn] is
    the string that the function with reference [fn] returns. *)
Definition markup_of (body : nat -> string) (m : entry) : string :=
  match m with
  | Generator f => f tt
  | Function fn => body fn
  | Markup s => s
  end.

(** The output of [generate()] as the specification words it: the markup
    of every entry of the list, in the order of the list, each prefixed
    by a newline. *)
Fixpoint generate (body : nat -> string) (reg : Registry) : string :=
  match reg with
  | [] => ""
  | (_, m) :: rest => nl ++ markup_of body m ++ generate body rest
  end.

(** Every function of the registry is a pure markup generator: a call
    of it returns [body] of its reference, whatever the state, and
    leaves the state as it was. *)
Definition pure_functions `{Functions} (body : nat -> string)
  (reg : Registry) : Prop :=
  forall key fn, In (key, Function fn) reg ->
    forall w, invoke fn w = (Val (body fn), w).

(** No name of the registry is an array index. *)
Definition no_index_names (reg : Registry) : Prop :=
  forall key m, In (key, m) reg -> array_index key = None.

(** The fixed name the renderers register their embed markup under. *)
Definition embed_name : string := "built-in embed/embedList".

(** How many entries of the registry go under [name]. *)
Definition entries_named (name : string) (reg : Registry) : nat :=
  List.length (filter (fun km => (fst km =? name)) reg).

(** The widget markup units of an embedList, as the specification words
    them: one unit per element of the value, in order, the i-th holding
    the widget's markup for the i-th element. *)
Fixpoint units {F : Type} `{Form F} (field : F) (name : string)
  (raw : value) (unit_of : string -> string) (vs : list value) : string :=
  match vs with
  | [] => ""
  | v :: rest =>
      unit_of (Widget.toHTML (widget field) name v raw field)
      ++ units field name raw unit_of rest
  end.

End Spec.

(* ================================================================== *)
(** ** Measures used to state further properties *)
(* ================================================================== *)

Module Measures.
Import Js Render.

(** What [errorHTML] shows for one error:
    [errors[i].message || errors[i].toString()]. *)
Definition error_text (e : Error) : string :=
  match present (message e) with
  | Some m => m
  | None => toString e
  end.

(** One list item per error, in order. *)
Fixpoint error_items (errors : list Error) : string :=
  match errors with
  | [] => ""
  | e :: rest =>
      "<li class=" ++ quoted "error_msg" ++ ">" ++ error_text e ++ "</li>"
      ++ error_items rest
  end.

(** Whether a string holds an underscore. *)
Fixpoint has_underscore (s : string) : bool :=
  match s with
  | EmptyString => false
  | String c s' => Ascii.eqb c "_"%char || has_underscore s'
  end.

(** Whether every character of a string is an ASCII character. *)
Fixpoint ascii_only (s : string) : bool :=
  match s with
  | EmptyString => true
  | String c s' => (nat_of_ascii c <? 128)%nat && ascii_only s'
  end.

(** The names of the registry's own properties, in creation order. *)
Definition keys (reg : Registry) : list string := map fst reg.

(** A sequence of calls of [registerInitializationMarkup], in order. *)
Fixpoint register_all `{Host} (rs : list (string * entry)) : JS unit :=
  match rs with
  | [] => ret tt
  | (name, value) :: rest =>
      registerInitializationMarkup name value ;; register_all rest
  end.

(** The [beginGroup] calls of a sequence minus its [endGroup] calls. *)
Fixpoint net_groups {F : Type} (cs : list (visit F)) : Z :=
  match cs with
  | [] => 0
  | BeginGroup _ :: rest => net_groups rest + 1
  | EndGroup _ :: rest => net_groups rest - 1
  | _ :: rest => net_groups rest
  end%Z.

End Measures.

(* ================================================================== *)
(** * Properties of the validators *)
(* ================================================================== *)

Module JsFacts.
Import Js.

Lemma empty_like_strict v :
  empty_like v =
  strict_eq v VNull || strict_eq v VUndefined || strict_eq v (VStr "").
Proof. destruct v; reflexivity. Qed.

Lemma strict_eq_string_refl s : strict_eq (VStr s) (VStr s) = true.
Proof. simpl. apply String.eqb_refl. Qed.

(** [===] is not reflexive: NaN differs from itself. *)
Lemma strict_eq_NaN : strict_eq VNaN VNaN = false.
Proof. reflexivity. Qed.

Lemma join_singleton sep s : join sep [s] = s.
Proof. reflexivity. Qed.

Lemma append_empty_r s : s ++ "" = s.
Proof. induction s as [|c s IH]; simpl; [reflexivity | now rewrite IH]. Qed.

Lemma append_assoc (a b c : string) : (a ++ b) ++ c = a ++ (b ++ c).
Proof. induction a as [|x a IH]; simpl; [reflexivity | now rewrite IH]. Qed.

End JsFacts.

Module ValidatorsFacts.
Import Js Validators JsFacts.

(** C4. The validator of [matchUsername()] returns normally when
    [userCtx.name === newVal] and when both are empty-like (each one of
    null, undefined, the empty string); in every other case it throws an
    error whose message is "Field does not match your username". *)
Theorem matchUsername_returns_or_throws
  (newDoc oldDoc newVal oldVal : value) (userCtx : UserCtx) :
  matchUsername tt newDoc oldDoc newVal oldVal userCtx =
  if strict_eq (name userCtx) newVal
     || (empty_like (name userCtx) && empty_like newVal)
  then Returns
  else Throws "Field does not match your username".
Proof.
  unfold matchUsername, strict_neq.
  rewrite !empty_like_strict.
  destruct (strict_eq (name userCtx) newVal); simpl; [reflexivity|].
  destruct (strict_eq (name userCtx) VNull),
           (strict_eq (name userCtx) VUndefined),
           (strict_eq (name userCtx) (VStr ""));
    destruct (strict_eq newVal VNull),
             (strict_eq newVal VUndefined),
             (strict_eq newVal (VStr "")); reflexivity.
Qed.

(** The nine empty-like pairs all pass, also the ones that are not
    strictly equal. *)
Example matchUsername_null_vs_empty_string :
  matchUsername tt VNull VNull (VStr "") VUndefined {| name := VNull |}
  = Returns.
Proof. reflexivity. Qed.

Example matchUsername_other_user :
  matchUsername tt VNull VNull (VStr "bob") VUndefined
    {| name := VStr "alice" |}
  = Throws "Field does not match your username".
Proof. reflexivity. Qed.

Example matchUsername_anonymous_claims_name :
  matchUsername tt VNull VNull (VStr "bob") VUndefined {| name := VNull |}
  = Throws "Field does not match your username".
Proof. reflexivity. Qed.

(** C5. The validator of [uneditable()] throws, with the message "Field
    cannot be edited once created", exactly when [oldDoc] is truthy and
    [newValue !== oldValue]; with a falsy [oldDoc] it returns normally
    for every pair of values. *)
Theorem uneditable_throws_exactly
  (newDoc oldDoc newValue oldValue : value) (userCtx : UserCtx) :
  uneditable tt newDoc oldDoc newValue oldValue userCtx =
  (if truthy oldDoc && strict_neq newValue oldValue
   then Throws "Field cannot be edited once created"
   else Returns)
  /\ (truthy oldDoc = false ->
      uneditable tt newDoc oldDoc newValue oldValue userCtx = Returns).
Proof.
  unfold uneditable.
  destruct (truthy oldDoc); simpl; split; auto; discriminate.
Qed.

Lemma uneditable_throws_exactly_witness :
  truthy VNull = false
  /\ uneditable tt (VObj 1 []) VNull (VStr "a") (VStr "b") {| name := VNull |}
     = Returns.
Proof.
  split; [reflexivity|].
  apply (uneditable_throws_exactly
           (VObj 1 []) VNull (VStr "a") (VStr "b") {| name := VNull |}).
  reflexivity.
Defined.

Example uneditable_on_creation :
  uneditable tt (VObj 1 []) VNull (VStr "a") VUndefined {| name := VNull |}
  = Returns.
Proof. reflexivity. Qed.

Example uneditable_on_update :
  uneditable tt (VObj 1 []) (VObj 2 []) (VStr "a") (VStr "b")
    {| name := VNull |}
  = Throws "Field cannot be edited once created".
Proof. reflexivity. Qed.

Section UsernameMatchesFieldFacts.
Variable getPropertyPath : value -> list string -> value.

(** C6. [usernameMatchesField(path)] takes a single segment or an ordered
    sequence of segments; its validator looks the path up in [newDoc] and
    throws "username does not match field: " followed by the dot-joined
    path exactly when [userCtx.name] is not strictly equal to the value
    found. *)
Theorem usernameMatchesField_throws_exactly
  (newDoc oldDoc newValue oldValue : value) (userCtx : UserCtx) :
  (forall s : string,
      usernameMatchesField getPropertyPath (Segment s)
        newDoc oldDoc newValue oldValue userCtx =
      if strict_eq (name userCtx) (getPropertyPath newDoc [s])
      then Returns
      else Throws ("username does not match field: " ++ s))
  /\ (forall l : list string,
      usernameMatchesField getPropertyPath (Segments l)
        newDoc oldDoc newValue oldValue userCtx =
      if strict_eq (name userCtx) (getPropertyPath newDoc l)
      then Returns
      else Throws ("username does not match field: " ++ String.concat "." l)).
Proof.
  split; intros; unfold usernameMatchesField, strict_neq; simpl;
    match goal with
    | |- context [strict_eq ?a ?b] => destruct (strict_eq a b)
    end; reflexivity.
Qed.

End UsernameMatchesFieldFacts.

(** With the property-path lookup the specification describes,
    [["a"; "b"]] resolves [newDoc.a.b]. *)
Example usernameMatchesField_nested :
  let newDoc := VObj 1 [("a", VObj 2 [("b", VStr "alice")])] in
  usernameMatchesField getPropertyPath_spec (Segments ["a"; "b"])
    newDoc VNull VUndefined VUndefined {| name := VStr "alice" |} = Returns
  /\ usernameMatchesField getPropertyPath_spec (Segments ["a"; "b"])
       newDoc VNull VUndefined VUndefined {| name := VStr "bob" |}
     = Throws "username does not match field: a.b"
  /\ usernameMatchesField getPropertyPath_spec (Segment "a")
       newDoc VNull VUndefined VUndefined {| name := VStr "alice" |}
     = Throws "username does not match field: a".
Proof. repeat split. Qed.

End ValidatorsFacts.

(* ================================================================== *)
(** * Properties of the registry *)
(* ================================================================== *)

Module RegistryFacts.
Import Js Render JsFacts.

Lemma own_put_same reg name v : own (put reg name v) name = Some v.
Proof.
  induction reg as [|[k m] reg IH]; simpl.
  - now rewrite String.eqb_refl.
  - destruct (k =? name) eqn:E; simpl; rewrite E; auto.
Qed.

Lemma own_put_other reg name v other :
  name <> other -> own (put reg name v) other = own reg other.
Proof.
  intros Hne. induction reg as [|[k m] reg IH]; simpl.
  - destruct (name =? other) eqn:E; [apply String.eqb_eq in E; tauto | auto].
  - destruct (k =? name) eqn:E; simpl.
    + apply String.eqb_eq in E. subst k.
      destruct (name =? other) eqn:E'; [apply String.eqb_eq in E'; tauto | auto].
    + now rewrite IH.
Qed.

(** A name that is not an own property yet is added last. *)
Lemma put_fresh reg name v :
  own reg name = None -> put reg name v = (reg ++ [(name, v)])%list.
Proof.
  induction reg as [|[k m] reg IH]; simpl; [reflexivity|].
  destruct (k =? name); [discriminate|].
  intros Hnone. now rewrite IH.
Qed.

Lemma generate_app (body : nat -> string) (reg reg' : Registry) :
  Spec.generate body (reg ++ reg')%list
  = Spec.generate body reg ++ Spec.generate body reg'.
Proof.
  induction reg as [|[k m] reg IH]; simpl; [reflexivity|].
  rewrite IH. now rewrite !append_assoc.
Qed.

(** With unique names, an entry of the list is what a read of its name
    gives. *)
Lemma own_in (reg : Registry) (k : string) (m : entry) :
  NoDup (map fst reg) -> In (k, m) reg -> own reg k = Some m.
Proof.
  induction reg as [|[k' m'] reg IH]; simpl; intros Hnd Hin; [contradiction|].
  inversion Hnd as [|? ? Hnotin Hnd']; subst.
  destruct Hin as [Heq|Hin].
  - injection Heq as -> ->. now rewrite String.eqb_refl.
  - destruct (k' =? k) eqn:E; [|auto].
    apply String.eqb_eq in E. subst k'. exfalso. apply Hnotin.
    change k with (fst (k, m)). now apply in_map.
Qed.

Lemma in_insert_index (n : N) (km : string * entry)
  (l : list (N * (string * entry))) (x : N * (string * entry)) :
  In x (insert_index n km l) -> x = (n, km) \/ In x l.
Proof.
  induction l as [|[n' km'] l IH]; simpl.
  - intros [<-|[]]. now left.
  - destruct (n <? n')%N; simpl.
    + intros [<-|Hin]; [now left | now right].
    + intros [<-|Hin]; [right; now left|].
      destruct (IH Hin) as [->|Hl]; [now left | right; now right].
Qed.

Lemma in_index_entries (reg : Registry) (n : N) (km : string * entry) :
  In (n, km) (index_entries reg) -> In km reg.
Proof.
  induction reg as [|[k m] reg IH]; simpl; [tauto|].
  destruct (array_index k) as [n'|].
  - intros Hin. apply in_insert_index in Hin.
    destruct Hin as [Heq|Hin]; [injection Heq as _ <-; now left | right; auto].
  - intros Hin. right. auto.
Qed.

(** The enumeration visits entries of the registry only. *)
Lemma in_enumerate (reg : Registry) (km : string * entry) :
  In km (enumerate reg) -> In km reg.
Proof.
  unfold enumerate, other_entries. intros Hin.
  apply in_app_or in Hin. destruct Hin as [Hin|Hin].
  - apply in_map_iff in Hin. destruct Hin as ([n km'] & Heq & Hin).
    simpl in Heq. subst km'. eapply in_index_entries, Hin.
  - apply filter_In in Hin. tauto.
Qed.

Lemma no_index_tail (km : string * entry) (reg : Registry) :
  Spec.no_index_names (km :: reg) -> Spec.no_index_names reg.
Proof. intros Hno key m Hin. apply (Hno key m). now right. Qed.

Lemma index_entries_none (reg : Registry) :
  Spec.no_index_names reg -> index_entries reg = [].
Proof.
  induction reg as [|[k m] reg IH]; intros Hno; [reflexivity|].
  simpl. rewrite (Hno k m (or_introl eq_refl)).
  apply IH. eapply no_index_tail, Hno.
Qed.

Lemma other_entries_all (reg : Registry) :
  Spec.no_index_names reg -> other_entries reg = reg.
Proof.
  unfold other_entries.
  induction reg as [|[k m] reg IH]; intros Hno; [reflexivity|].
  simpl. rewrite (Hno k m (or_introl eq_refl)).
  f_equal. apply IH. eapply no_index_tail, Hno.
Qed.

(** Without array indices among the names, the enumeration is the
    creation order. *)
Lemma enumerate_no_index (reg : Registry) :
  Spec.no_index_names reg -> enumerate reg = reg.
Proof.
  intros Hno. unfold enumerate.
  now rewrite (index_entries_none _ Hno), (other_entries_all _ Hno).
Qed.

Section Generation.
Context `{Functions}.

(** The loop over entries that a read of their names still gives, when
    the functions among them only return their markup: the state is left
    as it was and the markup of each entry is appended in turn. *)
Lemma for_in_pure (body : nat -> string) (es : Registry) (rv : string)
  (w : world) :
  (forall k m, In (k, m) es -> own (_initialization_markup w) k = Some m) ->
  (forall k fn, In (k, Function fn) es ->
     forall w', invoke fn w' = (Val (body fn), w')) ->
  for_in (map fst es) rv w = (Val (rv ++ Spec.generate body es), w).
Proof.
  revert rv. induction es as [|[k m] es IH]; intros rv Hown Hpure.
  - simpl. unfold ret. now rewrite append_empty_r.
  - assert (Hemit : emit rv k w = (Val (rv ++ nl ++ Spec.markup_of body m), w)).
    { unfold emit, bind, get_registry.
      rewrite (Hown k m (or_introl eq_refl)).
      destruct m as [s|f|fn]; simpl.
      - unfold ret. now rewrite append_empty_r.
      - reflexivity.
      - rewrite (Hpure k fn (or_introl eq_refl)). reflexivity. }
    cbn [map fst for_in]. unfold bind at 1. rewrite Hemit.
    rewrite IH.
    + cbn [Spec.generate]. now rewrite !append_assoc.
    + intros k' m' Hin. apply Hown. now right.
    + intros k' fn Hin. apply (Hpure k'). now right.
Qed.

(** With unique names and functions that only return their markup,
    [generateInitializationMarkup] leaves the state as it was and returns
    the markup of the entries in the order of the enumeration. *)
Lemma generate_pure (body : nat -> string) (w : world) :
  NoDup (map fst (_initialization_markup w)) ->
  Spec.pure_functions body (_initialization_markup w) ->
  generateInitializationMarkup w
  = (Val (Spec.generate body (enumerate (_initialization_markup w))), w).
Proof.
  intros Hnd Hpure.
  unfold generateInitializationMarkup, bind, get_registry.
  rewrite (for_in_pure body).
  - reflexivity.
  - intros k m Hin. apply own_in; [exact Hnd | now apply in_enumerate].
  - intros k fn Hin. apply (Hpure k). now apply in_enumerate.
Qed.

(** C8, as the code has it.  When every function of the registry is a
    pure markup generator (a call returns its markup, the same whatever
    the state, and changes nothing), [generateInitializationMarkup()]
    leaves the registry as it was and two consecutive calls give the same
    output: every entry's markup (the entry invoked if callable, else its
    string form), each prefixed by a newline, in the order of the
    enumeration, which is registration order when no name is an array
    index. *)
Theorem generate_is_repeatable (body : nat -> string) (w : world) :
  NoDup (map fst (_initialization_markup w)) ->
  Spec.pure_functions body (_initialization_markup w) ->
  snd (generateInitializationMarkup w) = w
  /\ fst (generateInitializationMarkup (snd (generateInitializationMarkup w)))
     = fst (generateInitializationMarkup w)
  /\ fst (generateInitializationMarkup w)
     = Val (Spec.generate body (enumerate (_initialization_markup w)))
  /\ (Spec.no_index_names (_initialization_markup w) ->
      fst (generateInitializationMarkup w)
      = Val (Spec.generate body (_initialization_markup w))).
Proof.
  intros Hnd Hpure.
  rewrite (generate_pure body w Hnd Hpure). simpl.
  rewrite (generate_pure body w Hnd Hpure). simpl.
  repeat split.
  intros Hno. now rewrite (enumerate_no_index _ Hno).
Qed.

End Generation.

Section Registration.
Context `{Host} `{Functions}.

Lemma register_unfold name value w :
  registerInitializationMarkup name value w =
  if reads_truthy (_initialization_markup w) name
  then (Val tt, w)
  else (Val tt, {| _initialization_markup :=
                     put (_initialization_markup w) name value;
                   depth := depth w |}).
Proof.
  unfold registerInitializationMarkup, bind, get_registry, set_registry, ret.
  now destruct (reads_truthy (_initialization_markup w) name).
Qed.

(** Registration never touches [depth]. *)
Lemma register_depth name value w :
  depth (snd (registerInitializationMarkup name value w)) = depth w.
Proof.
  rewrite register_unfold.
  now destruct (reads_truthy (_initialization_markup w) name).
Qed.

(** A name that already reads as truthy is left alone. *)
Lemma register_present name value w :
  reads_truthy (_initialization_markup w) name = true ->
  registerInitializationMarkup name value w = (Val tt, w).
Proof. intros Hp. now rewrite register_unfold, Hp. Qed.

Lemma own_none_not_in (reg : Registry) (name : string) :
  own reg name = None -> ~ In name (map fst reg).
Proof.
  induction reg as [|[k m] reg IH]; simpl; [tauto|].
  destruct (k =? name) eqn:E; [discriminate|].
  apply String.eqb_neq in E. intros Hnone [Heq|Hin]; [tauto | now apply IH].
Qed.

(** C1, as the code has it.  When [name] does not yet read as a truthy
    entry and [v1] is truthy (a function or a non-empty string),
    registering [v1] and then [v2] under [name] leaves [v1] stored: the
    second registration changes nothing, so that the generated output is
    the one of the state in which [v2] was never registered; and when
    [name] was not an own property, no name is an array index and the
    functions registered are pure markup generators, that output is the
    earlier entries' markup followed by a newline and the markup of
    [v1]. *)
Theorem register_first_write_wins (name : string) (v1 v2 : entry) (w : world) :
  reads_truthy (_initialization_markup w) name = false ->
  entry_truthy v1 = true ->
  let w1 := snd (registerInitializationMarkup name v1 w) in
  let w2 := snd (registerInitializationMarkup name v2 w1) in
  own (_initialization_markup w2) name = Some v1
  /\ w2 = w1
  /\ _initialization_markup w2 = put (_initialization_markup w) name v1
  /\ generateInitializationMarkup w2 = generateInitializationMarkup w1
  /\ (forall body : nat -> string,
        NoDup (map fst (_initialization_markup w)) ->
        own (_initialization_markup w) name = None ->
        Spec.no_index_names (_initialization_markup w2) ->
        Spec.pure_functions body (_initialization_markup w2) ->
        fst (generateInitializationMarkup w2)
        = Val (Spec.generate body (_initialization_markup w)
               ++ nl ++ Spec.markup_of body v1)).
Proof.
  intros Habsent Htruthy w1 w2.
  assert (Hw1 : w1 = {| _initialization_markup :=
                          put (_initialization_markup w) name v1;
                        depth := depth w |}).
  { unfold w1. now rewrite register_unfold, Habsent. }
  assert (Hw2 : w2 = w1).
  { unfold w2. rewrite register_present; [reflexivity|].
    rewrite Hw1. unfold reads_truthy. simpl. now rewrite own_put_same. }
  rewrite Hw2, Hw1. simpl.
  split; [apply own_put_same|]. repeat split.
  intros body Hnd Hnone Hno Hpure.
  rewrite (put_fresh _ _ _ Hnone) in *.
  set (w' := {| _initialization_markup :=
                  (_initialization_markup w ++ [(name, v1)])%list;
                depth := depth w |}).
  assert (Hnd' : NoDup (map fst (_initialization_markup w'))).
  { simpl. rewrite map_app. simpl. apply NoDup_app.
    - exact Hnd.
    - repeat constructor. simpl. tauto.
    - intros x Hx [<-|[]]. now apply own_none_not_in in Hnone. }
  rewrite (generate_pure body w' Hnd' Hpure). simpl.
  rewrite (enumerate_no_index _ Hno), generate_app. simpl.
  now rewrite append_empty_r.
Qed.

End Registration.

Import Sample.

Lemma register_first_write_wins_witness :
  reads_truthy (_initialization_markup Sample.fresh) "k" = false
  /\ entry_truthy (Markup "A") = true
  /\ own (_initialization_markup
            (snd (registerInitializationMarkup "k" (Markup "B")
                    (snd (registerInitializationMarkup "k" (Markup "A")
                            Sample.fresh)))))
         "k" = Some (Markup "A").
Proof.
  split; [reflexivity|]. split; [reflexivity|].
  apply (register_first_write_wins "k" (Markup "A") (Markup "B") Sample.fresh);
    reflexivity.
Defined.

(** C1 as stated fails for a falsy first value: the empty string
    registered first is overwritten by the second registration, and the
    output shows the second value. *)
Lemma register_empty_string_overwritten :
  own (_initialization_markup twice_registered) "k" = Some (Markup "B")
  /\ own (_initialization_markup twice_registered) "k" <> Some (Markup "")
  /\ fst (generateInitializationMarkup twice_registered) = Val (nl ++ "B").
Proof. repeat split. discriminate. Qed.

Lemma mixed_registry_pure :
  Spec.pure_functions bodies (_initialization_markup mixed_registry).
Proof.
  intros key fn Hin w. simpl in Hin.
  destruct Hin as [Heq|[Heq|[Heq|[]]]]; try discriminate.
  injection Heq as _ <-. reflexivity.
Defined.

Lemma mixed_registry_names :
  NoDup (map fst (_initialization_markup mixed_registry)).
Proof. repeat constructor; simpl; intuition discriminate. Defined.

Lemma generate_is_repeatable_witness :
  NoDup (map fst (_initialization_markup mixed_registry))
  /\ Spec.pure_functions bodies (_initialization_markup mixed_registry)
  /\ snd (generateInitializationMarkup mixed_registry) = mixed_registry
  /\ fst (generateInitializationMarkup mixed_registry)
     = Val (nl ++ "<two>" ++ nl ++ "<a>" ++ nl ++ "<g>").
Proof.
  split; [exact mixed_registry_names|].
  split; [exact mixed_registry_pure|].
  destruct (generate_is_repeatable bodies mixed_registry
              mixed_registry_names mixed_registry_pure)
    as (Hsame & _ & Hout & _).
  split; [exact Hsame | exact Hout].
Defined.

(** C8 as stated fails on two counts.  After "b" and then "1" were
    registered, the output has the markup of "1" first: an array index
    is visited before the other names, whatever the registration order.
    And a registered function that itself registers markup makes
    [generateInitializationMarkup()] change the registry, and the next
    call return another output. *)
Lemma generate_order_and_effects :
  _initialization_markup index_after_name
  = [("b", Markup "<b>"); ("1", Markup "<one>")]
  /\ fst (generateInitializationMarkup index_after_name)
     = Val (nl ++ "<one>" ++ nl ++ "<b>")
  /\ fst (generateInitializationMarkup index_after_name)
     <> Val (nl ++ "<b>" ++ nl ++ "<one>")
  /\ _initialization_markup
       (snd (generateInitializationMarkup registering_function))
     <> _initialization_markup registering_function
  /\ fst (generateInitializationMarkup
            (snd (generateInitializationMarkup registering_function)))
     <> fst (generateInitializationMarkup registering_function).
Proof. repeat split; vm_compute; discriminate. Qed.

(** A name the registry object inherits is never stored at all. *)
Example register_inherited_name_ignored :
  snd (registerInitializationMarkup "constructor" (Markup "A") Sample.fresh)
  = Sample.fresh.
Proof. reflexivity. Qed.

End RegistryFacts.

(* ================================================================== *)
(** * Properties of the markup utilities *)
(* ================================================================== *)

Module MarkupFacts.
Import Js Render JsFacts.

Section Labels.
Context {A : Type} `{Described A}.

(** C10. Without an [id], or with a falsy one, [labelHTML(field, name)]
    is [<label for="id_NAME">] around [labelText(field, name)]; a truthy
    [id] is the for-attribute as it stands. *)
Theorem labelHTML_for_attribute (field : A) (name : string) :
  labelHTML field name None
  = "<label for=" ++ dq ++ "id_" ++ name ++ dq ++ ">"
    ++ labelText field name ++ "</label>"
  /\ labelHTML field name (Some "")
     = "<label for=" ++ dq ++ "id_" ++ name ++ dq ++ ">"
       ++ labelText field name ++ "</label>"
  /\ forall (c : ascii) (id : string),
      labelHTML field name (Some (String c id))
      = "<label for=" ++ dq ++ String c id ++ dq ++ ">"
        ++ labelText field name ++ "</label>".
Proof.
  unfold labelHTML, quoted. simpl.
  repeat split; intros; rewrite ?append_assoc; reflexivity.
Qed.

End Labels.

Import Sample.

Example labelHTML_default_id :
  labelHTML text_field "first_name" None
  = "<label for=" ++ dq ++ "id_first_name" ++ dq ++ ">First name</label>".
Proof. reflexivity. Qed.

Example labelHTML_given_id :
  labelHTML text_field "first_name" (Some "fn")
  = "<label for=" ++ dq ++ "fn" ++ dq ++ ">First name</label>".
Proof. reflexivity. Qed.

Example labelText_custom :
  labelText hidden_field "x" = "Secret".
Proof. reflexivity. Qed.

Example classes_required_and_error :
  classes text_field [] = ["field"; "required"]
  /\ classes comment_type [{| message := Some "x"; toString := "Error: x" |}]
     = ["field"; "error"].
Proof. split; reflexivity. Qed.

End MarkupFacts.

(* ================================================================== *)
(** * Properties of the renderers *)
(* ================================================================== *)

Module RendererFacts.
Import Js Render JsFacts RegistryFacts.

Section Fields.
Context `{Host} {F : Type} `{Form F}.

(** C9. In both renderers, [field] on a field whose widget type is
    "hidden" returns the widget's own markup for the dot-joined path, and
    nothing around it. *)
Theorem hidden_field_is_bare (v : variant) (f : F) (path : list string)
  (value raw : Js.value) (errors : list Error) (w : world) :
  Widget.type (widget f) = "hidden" ->
  field (renderer v) f path value raw errors w
  = (Val (Widget.toHTML (widget f) (join "." path) value raw f), w).
Proof.
  intros Hhidden.
  destruct v; simpl;
    unfold table_field, div_field, bind, get_depth, ret;
    rewrite Hhidden; reflexivity.
Qed.

(** The loop of [table.embedList] appends one unit per element, in
    order, each with the widget's markup for that element. *)
Lemma table_loop_units (f : F) (name : string) (raw : Js.value)
  (vs : list Js.value) (html : string) :
  fold_left (table_item f name raw) vs html
  = html ++ Spec.units f name raw table_unit vs.
Proof.
  revert html. induction vs as [|v vs IH]; intros html; simpl.
  - now rewrite append_empty_r.
  - rewrite IH. unfold table_item. now rewrite append_assoc.
Qed.

(** [table.embedList] on an array: one outer container, the units of
    the elements in order, one error list. *)
Lemma table_embedList_units (f : F) (path : list string) (ref : nat)
  (vs : list Js.value) (raw : Js.value) (errors : list Error) (w : world) :
  fst (table_embedList f path (VArr ref vs) raw errors w)
  = Val (table_list_open f (join "." path)
           (join " " (slice (depth w) path))
         ++ Spec.units f (join "." path) raw table_unit vs
         ++ table_list_close errors).
Proof.
  unfold table_embedList, bind, get_depth, ret. simpl.
  rewrite register_unfold.
  destruct (reads_truthy _ _); simpl;
    now rewrite table_loop_units, append_assoc.
Qed.

(** The loop of [div.embedList] appends one unit per element, each with
    the widget's markup for the whole [value]. *)
Lemma div_loop_units (f : F) (name : string) (value raw : Js.value)
  (vs : list Js.value) (html : string) :
  fold_left (div_item f name value raw) vs html
  = html ++ Spec.units f name raw (div_unit name) (map (fun _ => value) vs).
Proof.
  revert html. induction vs as [|v vs IH]; intros html; simpl.
  - now rewrite append_empty_r.
  - rewrite IH. unfold div_item. now rewrite append_assoc.
Qed.

Lemma div_embedList_units (f : F) (path : list string) (ref : nat)
  (vs : list Js.value) (raw : Js.value) (errors : list Error) (w : world) :
  fst (div_embedList f path (VArr ref vs) raw errors w)
  = Val (div_list_open f (join "." path)
           (join " " (slice (depth w) path)) errors
         ++ Spec.units f (join "." path) raw (div_unit (join "." path))
              (map (fun _ => VArr ref vs) vs)
         ++ div_list_close errors).
Proof.
  unfold div_embedList, bind, get_depth, ret. simpl.
  now rewrite div_loop_units, append_assoc.
Qed.

End Fields.

Import Sample.

Lemma hidden_field_is_bare_witness :
  Widget.type (widget hidden_field) = "hidden"
  /\ field (renderer Div) hidden_field ["user"; "token"] (VStr "t0")
       (VStr "t0") [{| message := Some "bad"; toString := "Error: bad" |}]
       fresh
     = (Val (Widget.toHTML (widget hidden_field) "user.token" (VStr "t0")
               (VStr "t0") hidden_field), fresh).
Proof.
  split; [reflexivity|].
  apply (hidden_field_is_bare Div hidden_field ["user"; "token"]).
  reflexivity.
Defined.

(** C3 at a two-element list.  The table renderer renders the elements
    "x" and "y" in order; the div renderer renders two units that both
    hold the widget's markup for the whole array, so that its output is
    not the one with a unit per element. *)
Theorem embedList_div_renders_whole_value :
  fst (embedList table text_field ["b"] xy VNull [] fresh)
  = Val (table_list_open text_field "b" "b"
         ++ Spec.units text_field "b" VNull table_unit [VStr "x"; VStr "y"]
         ++ table_list_close [])
  /\ fst (embedList div text_field ["b"] xy VNull [] fresh)
     = Val (div_list_open text_field "b" "b" []
            ++ div_unit_of xy ++ div_unit_of xy
            ++ div_list_close [])
  /\ fst (embedList div text_field ["b"] xy VNull [] fresh)
     <> Val (div_list_open text_field "b" "b" []
             ++ div_unit_of (VStr "x") ++ div_unit_of (VStr "y")
             ++ div_list_close []).
Proof.
  repeat split. vm_compute. discriminate.
Qed.

End RendererFacts.

(* ================================================================== *)
(** * Properties of a traversal *)
(* ================================================================== *)

Module TraversalFacts.
Import Js Render JsFacts RegistryFacts.

Section Traversal.
Context `{Host} {F : Type} `{Form F}.

Local Open Scope Z_scope.

Lemma last_named (path : list string) :
  path <> [] -> exists name, _last path = Some name.
Proof.
  unfold _last. induction path as [|s path IH]; [congruence|].
  intros _. destruct path as [|s' path].
  - now exists s.
  - destruct IH as [name Hname]; [discriminate|]. now exists name.
Qed.

(** [start()] sets [depth] to 0 and returns. *)
Lemma start_call (v : variant) (w : world) :
  exists html,
    start (renderer v) w
    = (Val html, {| _initialization_markup := _initialization_markup w;
                    depth := 0 |}).
Proof. destruct v; simpl; eexists; reflexivity. Qed.

(** [beginGroup] adds one to [depth], whether or not it then throws. *)
Lemma beginGroup_call (v : variant) (path : list string) (w : world) :
  exists res,
    call (renderer v) (BeginGroup path) w
    = (res, {| _initialization_markup := _initialization_markup w;
               depth := depth w + 1 |})
    /\ (path <> [] -> exists html, res = Val html).
Proof.
  destruct v; simpl;
    unfold table_beginGroup, div_beginGroup, bind, get_depth, set_depth;
    simpl.
  all: destruct (_last path) as [name|] eqn:Hlast.
  all: eexists; split; [reflexivity|].
  all: intros Hne; try (eexists; reflexivity).
  all: destruct (last_named path Hne) as [name Hname]; congruence.
Qed.

(** [endGroup] takes one from [depth] and returns. *)
Lemma endGroup_call (v : variant) (path : list string) (w : world) :
  exists html,
    call (renderer v) (EndGroup path) w
    = (Val html, {| _initialization_markup := _initialization_markup w;
                    depth := depth w - 1 |}).
Proof. destruct v; simpl; eexists; reflexivity. Qed.

(** [field], [embed] and [embedList] return and leave [depth] alone. *)
Lemma leaf_call (v : variant) (c : visit F) (w : world) :
  is_leaf c = true ->
  exists html w',
    call (renderer v) c w = (Val html, w') /\ depth w' = depth w.
Proof.
  intros Hleaf.
  destruct c as [p|p|f p x raw errs|f p x raw errs|f p x raw errs];
    try discriminate; destruct v; simpl.
  - unfold table_field, bind, get_depth, ret.
    destruct (Widget.type (widget f) =? "hidden")%string; eauto.
  - unfold div_field, bind, get_depth, ret.
    destruct (Widget.type (widget f) =? "hidden")%string; eauto.
  - unfold table_embed, bind, get_depth, ret.
    rewrite register_unfold.
    destruct (reads_truthy _ _); simpl; eauto.
  - unfold div_embed, bind, get_depth, ret. eauto.
  - unfold table_embedList, bind, get_depth, ret.
    rewrite register_unfold.
    destruct (reads_truthy _ _); simpl; eauto.
  - unfold div_embedList, bind, get_depth, ret. eauto.
Qed.

Lemma finish_app (r : Renderer F) (a b : list (visit F)) (w : world) :
  finish r (a ++ b) w
  = match finish r a w with
    | Some w' => finish r b w'
    | None => None
    end.
Proof.
  revert w. induction a as [|c a IH]; intros w; simpl; [reflexivity|].
  destruct (call r c w) as [[html|e] w']; auto.
Qed.

Lemma trace_app (r : Renderer F) (a b : list (visit F)) (w : world) :
  trace r (a ++ b) w
  = (trace r a w
     ++ match finish r a w with
        | Some w' => trace r b w'
        | None => []
        end)%list.
Proof.
  revert w. induction a as [|c a IH]; intros w; simpl; [reflexivity|].
  destruct (call r c w) as [[html|e] w']; simpl; [now rewrite IH | reflexivity].
Qed.

(** [finish] is the final state of a traversal that does not throw. *)
Lemma traverse_finish (r : Renderer F) (cs : list (visit F)) (w : world) :
  match traverse r cs w with
  | (Val _, w') => finish r cs w = Some w'
  | (Exn _, _) => finish r cs w = None
  end.
Proof.
  revert w. induction cs as [|c cs IH]; intros w; simpl; [reflexivity|].
  unfold bind. destruct (call r c w) as [[html|e] w1]; [|reflexivity].
  specialize (IH w1).
  destruct (traverse r cs w1) as [[more|e] w2]; simpl; exact IH.
Qed.

Lemma finish_traverse (r : Renderer F) (cs : list (visit F)) (w w' : world) :
  finish r cs w = Some w' -> exists html, traverse r cs w = (Val html, w').
Proof.
  intros Hfin. pose proof (traverse_finish r cs w) as Ht.
  destruct (traverse r cs w) as [[html|e] w2].
  - exists html. congruence.
  - congruence.
Qed.

(** Along a balanced sequence [depth] never goes below where it
    started, is back there at the end, and the end is reached when every
    group has a name. *)
Lemma balanced_depth (v : variant) (cs : list (visit F)) :
  balanced cs ->
  forall w,
    Forall (fun w' => depth w <= depth w') (trace (renderer v) cs w)
    /\ (forall w', finish (renderer v) cs w = Some w' -> depth w' = depth w)
    /\ (groups_named cs = true -> exists w', finish (renderer v) cs w = Some w').
Proof.
  induction 1 as [|c cs Hleaf Hcs IH|path inner rest Hinner IHi Hrest IHr];
    intros w.
  - simpl. repeat split; [constructor | congruence | eauto].
  - destruct (leaf_call v c w Hleaf) as (html & w1 & Hcall & Hd).
    destruct (IH w1) as (Htrace & Hfin & Hex).
    simpl. rewrite Hcall. rewrite Hd in *. repeat split.
    + constructor; [lia | exact Htrace].
    + exact Hfin.
    + intros Hnamed. apply andb_prop in Hnamed. apply Hex, Hnamed.
  - destruct (beginGroup_call v path w) as (res & Hbegin & Hres).
    set (w1 := {| _initialization_markup := _initialization_markup w;
                  depth := depth w + 1 |}) in *.
    destruct (IHi w1) as (Hti & Hfi & Hei).
    cbn [trace finish]. rewrite Hbegin.
    destruct res as [html|e].
    2:{ repeat split.
        - constructor; [simpl; lia | constructor].
        - congruence.
        - intros Hnamed. simpl in Hnamed.
          destruct path; [discriminate|].
          destruct Hres as [html Hhtml]; congruence. }
    rewrite trace_app, finish_app.
    assert (Hinner_ge :
              Forall (fun w' => depth w <= depth w') (trace (renderer v) inner w1)).
    { eapply Forall_impl; [|exact Hti]. simpl. intros; lia. }
    destruct (finish (renderer v) inner w1) as [w2|] eqn:Hfin2.
    + specialize (Hfi w2 eq_refl).
      destruct (endGroup_call v path w2) as (html2 & Hend).
      set (w3 := {| _initialization_markup := _initialization_markup w2;
                    depth := depth w2 - 1 |}) in *.
      destruct (IHr w3) as (Htr & Hfr & Her).
      assert (Hd3 : depth w3 = depth w) by (simpl in *; lia).
      cbn [trace finish]. rewrite Hend. rewrite Hd3 in *.
      repeat split.
      * constructor; [simpl; lia|].
        apply Forall_app. split; [exact Hinner_ge|].
        constructor; [lia | exact Htr].
      * exact Hfr.
      * intros Hnamed. simpl in Hnamed.
        apply andb_prop in Hnamed. destruct Hnamed as [_ Hnamed].
        unfold groups_named in Hnamed. rewrite forallb_app in Hnamed.
        apply andb_prop in Hnamed. destruct Hnamed as [_ Hnamed].
        simpl in Hnamed. apply Her, Hnamed.
    + repeat split.
      * constructor; [simpl; lia|].
        apply Forall_app. split; [exact Hinner_ge | constructor].
      * congruence.
      * intros Hnamed. exfalso. simpl in Hnamed.
        apply andb_prop in Hnamed. destruct Hnamed as [_ Hnamed].
        unfold groups_named in Hnamed. rewrite forallb_app in Hnamed.
        apply andb_prop in Hnamed. destruct Hnamed as [Hnamed _].
        destruct (Hei Hnamed) as [w' Hw']. congruence.
Qed.

(** C7. In both renderers [depth] is 0 right after [start()], each
    [beginGroup] adds exactly one to it and each [endGroup] takes exactly
    one from it; so along every properly balanced and nested sequence of
    calls after [start()] it stays at or above 0, and it is 0 in the
    state in which [end()] is called. *)
Theorem depth_balanced (v : variant) (cs : list (visit F)) (w : world) :
  balanced cs ->
  let r := renderer v in
  let w0 := snd (start r w) in
  depth w0 = 0
  /\ (forall path w1, depth (snd (beginGroup r path w1)) = depth w1 + 1)
  /\ (forall path w1, depth (snd (endGroup r path w1)) = depth w1 - 1)
  /\ Forall (fun w' => 0 <= depth w') (trace r cs w0)
  /\ (forall html w', traverse r cs w0 = (Val html, w') -> depth w' = 0)
  /\ (groups_named cs = true ->
      exists html w', traverse r cs w0 = (Val html, w') /\ depth w' = 0).
Proof.
  intros Hbal r w0.
  assert (Hw0 : depth w0 = 0).
  { unfold w0, r. destruct (start_call v w) as [html ->]. reflexivity. }
  destruct (balanced_depth v cs Hbal w0) as (Htrace & Hfin & Hex).
  rewrite Hw0 in *.
  split; [reflexivity|]. split; [|split; [|split; [|split]]].
  - intros path w1. unfold r.
    destruct (beginGroup_call v path w1) as (res & Hcall & _).
    simpl in Hcall. now rewrite Hcall.
  - intros path w1. unfold r.
    destruct (endGroup_call v path w1) as (html & Hcall).
    simpl in Hcall. now rewrite Hcall.
  - exact Htrace.
  - intros html w' Htrav. apply Hfin.
    pose proof (traverse_finish r cs w0) as Ht. now rewrite Htrav in Ht.
  - intros Hnamed. destruct (Hex Hnamed) as [w' Hw'].
    destruct (finish_traverse _ _ _ _ Hw') as [html Hhtml].
    exists html, w'. split; [exact Hhtml | now apply Hfin].
Qed.

Lemma snd_traverse_cons (r : Renderer F) (c : visit F) (cs : list (visit F))
  (w : world) :
  snd (traverse r (c :: cs) w)
  = match call r c w with
    | (Val _, w1) => snd (traverse r cs w1)
    | (Exn _, w1) => w1
    end.
Proof.
  simpl. unfold bind. destruct (call r c w) as [[html|e] w1]; [|reflexivity].
  now destruct (traverse r cs w1) as [[more|e] w2].
Qed.

(** No call on the div renderer touches the registry. *)
Lemma div_call_registry (c : visit F) (w : world) :
  _initialization_markup (snd (call div c w)) = _initialization_markup w.
Proof.
  destruct c as [p|p|f p x raw errs|f p x raw errs|f p x raw errs]; simpl.
  - unfold div_beginGroup, bind, get_depth, set_depth. simpl.
    now destruct (_last p).
  - reflexivity.
  - unfold div_field, bind, get_depth, ret.
    now destruct (Widget.type (widget f) =? "hidden")%string.
  - reflexivity.
  - reflexivity.
Qed.

Lemma div_traverse_registry (cs : list (visit F)) (w : world) :
  _initialization_markup (snd (traverse div cs w)) = _initialization_markup w.
Proof.
  revert w. induction cs as [|c cs IH]; intros w; [reflexivity|].
  rewrite snd_traverse_cons. pose proof (div_call_registry c w) as Hc.
  destruct (call div c w) as [[html|e] w1]; simpl in Hc.
  - now rewrite IH.
  - exact Hc.
Qed.

(** A whole render pass of the div renderer leaves the registry as it
    found it, whatever it visits. *)
Lemma div_render_registry (cs : list (visit F)) (w : world) :
  _initialization_markup (snd (render div cs w)) = _initialization_markup w.
Proof.
  unfold render, bind. simpl. unfold div_start, bind, set_depth, ret. simpl.
  pose proof (div_traverse_registry cs
                {| _initialization_markup := _initialization_markup w;
                   depth := 0 |}) as Ht.
  destruct (traverse div cs _) as [[body|e] w1]; exact Ht.
Qed.

(** A call on the table renderer stores the embed entry when it is an
    embed or embedList visit and the name does not read as truthy yet. *)
Lemma table_call_registry (c : visit F) (w : world) :
  _initialization_markup (snd (call table c w))
  = if is_embed c
       && negb (reads_truthy (_initialization_markup w) Spec.embed_name)
    then put (_initialization_markup w) Spec.embed_name
           (Generator table_initializationMarkupForEmbed)
    else _initialization_markup w.
Proof.
  destruct c as [p|p|f p x raw errs|f p x raw errs|f p x raw errs]; simpl.
  - unfold table_beginGroup, bind, get_depth, set_depth. simpl.
    now destruct (_last p).
  - reflexivity.
  - unfold table_field, bind, get_depth, ret.
    now destruct (Widget.type (widget f) =? "hidden")%string.
  - unfold table_embed, bind, get_depth, ret. rewrite register_unfold.
    unfold Spec.embed_name. now destruct (reads_truthy _ _).
  - unfold table_embedList, bind, get_depth, ret. rewrite register_unfold.
    unfold Spec.embed_name. now destruct (reads_truthy _ _).
Qed.

(** Once the name reads as truthy, nothing the table renderer visits
    changes the registry. *)
Lemma table_keeps_present (cs : list (visit F)) (w : world) :
  reads_truthy (_initialization_markup w) Spec.embed_name = true ->
  _initialization_markup (snd (traverse table cs w)) = _initialization_markup w.
Proof.
  revert w. induction cs as [|c cs IH]; intros w Hp; [reflexivity|].
  rewrite snd_traverse_cons. pose proof (table_call_registry c w) as Hc.
  rewrite Hp, andb_false_r in Hc.
  destruct (call table c w) as [[html|e] w1]; simpl in Hc.
  - rewrite IH; [exact Hc | now rewrite Hc].
  - exact Hc.
Qed.

Lemma entries_named_absent (name : string) (reg : Registry) :
  own reg name = None -> Spec.entries_named name reg = 0%nat.
Proof.
  unfold Spec.entries_named.
  induction reg as [|[k m] reg IH]; simpl; [reflexivity|].
  destruct (k =? name)%string; [discriminate | exact IH].
Qed.

Lemma entries_named_fresh (name : string) (m : entry) (reg : Registry) :
  own reg name = None ->
  Spec.entries_named name (reg ++ [(name, m)])%list = 1%nat.
Proof.
  intros Hnone. pose proof (entries_named_absent _ _ Hnone) as Hzero.
  unfold Spec.entries_named in *.
  rewrite filter_app, length_app, Hzero. simpl.
  now rewrite String.eqb_refl.
Qed.

(** On the table renderer, from a registry without the embed name, a
    traversal stores exactly one entry under it when it visits an embed
    or embedList field, however many it visits, and none when it visits
    no such field. *)
Lemma table_registers_once (cs : list (visit F)) (w : world) :
  inherited Spec.embed_name = false ->
  own (_initialization_markup w) Spec.embed_name = None ->
  groups_named cs = true ->
  _initialization_markup (snd (traverse table cs w))
  = if existsb is_embed cs
    then (_initialization_markup w
          ++ [(Spec.embed_name, Generator table_initializationMarkupForEmbed)])%list
    else _initialization_markup w.
Proof.
  intros Hinh. revert w.
  induction cs as [|c cs IH]; intros w Hnone Hnamed; [reflexivity|].
  simpl in Hnamed. apply andb_prop in Hnamed. destruct Hnamed as [Hc Hnamed].
  rewrite snd_traverse_cons. pose proof (table_call_registry c w) as Hreg.
  assert (Habsent : reads_truthy (_initialization_markup w) Spec.embed_name
                    = false).
  { unfold reads_truthy. now rewrite Hnone. }
  rewrite Habsent, andb_true_r in Hreg.
  assert (Hval : exists html w1, call table c w = (Val html, w1)).
  { destruct (is_leaf c) eqn:Hleaf.
    - destruct (leaf_call Table c w Hleaf) as (html & w1 & Hcall & _). eauto.
    - destruct c as [p|p|? ? ? ? ?|? ? ? ? ?|? ? ? ? ?]; try discriminate.
      + destruct (beginGroup_call Table p w) as (res & Hcall & Hres).
        destruct Hres as [html ->]; [now destruct p | eauto].
      + destruct (endGroup_call Table p w) as (html & Hcall). eauto. }
  destruct Hval as (html & w1 & Hcall). rewrite Hcall in *. simpl in Hreg.
  simpl. destruct (is_embed c); simpl.
  - rewrite table_keeps_present.
    + rewrite Hreg. now apply put_fresh.
    + rewrite Hreg. unfold reads_truthy. now rewrite own_put_same.
  - rewrite IH;
      [now rewrite Hreg | now rewrite Hreg | exact Hnamed].
Qed.

End Traversal.

Import Sample.

Lemma address_form_balanced : balanced address_form.
Proof.
  apply (balanced_group ["root"; "address"]
           [Field text_field ["root"; "address"; "city"]
              (VStr "NYC") (VStr "NYC") []]
           []).
  - apply balanced_leaf; [reflexivity | apply balanced_nil].
  - apply balanced_nil.
Defined.

Lemma depth_balanced_witness :
  balanced address_form
  /\ Forall (fun w' => (0 <= depth w')%Z)
       (trace (renderer Table) address_form
          (snd (start (renderer Table) fresh))).
Proof.
  split; [exact address_form_balanced|].
  destruct (depth_balanced Table address_form fresh address_form_balanced)
    as (_ & _ & _ & Htrace & _).
  exact Htrace.
Defined.

(** The depths along the sample traversal: into the group, the field,
    out of the group. *)
Example address_form_depths :
  map depth (trace table address_form (snd (start table fresh)))
  = [1; 1; 0]%Z.
Proof. reflexivity. Qed.

(** C2 at an embed visit followed by an embedList visit, from the empty
    registry.  The table renderer leaves exactly one entry under
    "built-in embed/embedList"; the div renderer leaves the registry
    empty, so that nothing is generated for the embed widgets. *)
Theorem embed_div_registers_nothing :
  Spec.entries_named Spec.embed_name
    (_initialization_markup (snd (render table comments_form fresh))) = 1%nat
  /\ _initialization_markup (snd (render div comments_form fresh)) = []
  /\ Spec.entries_named Spec.embed_name
       (_initialization_markup (snd (render div comments_form fresh))) = 0%nat
  /\ fst (generateInitializationMarkup (snd (render div comments_form fresh)))
     = Val "".
Proof. repeat split. Qed.

End TraversalFacts.

(* ================================================================== *)
(** * Further properties of the validators *)
(* ================================================================== *)

Module ValidatorsMore.
Import Js Validators JsFacts.

Lemma strict_eq_string (s : string) (v : value) :
  strict_eq (VStr s) v = true -> v = VStr s.
Proof.
  destruct v; simpl; try discriminate.
  intros Heq. apply String.eqb_eq in Heq. now subst.
Qed.

Lemma not_empty_like_strict (v : value) :
  empty_like v = false ->
  strict_neq v VNull && strict_neq v VUndefined && strict_neq v (VStr "")
  = true.
Proof.
  rewrite empty_like_strict. unfold strict_neq.
  destruct (strict_eq v VNull), (strict_eq v VUndefined),
    (strict_eq v (VStr "")); simpl; congruence.
Qed.

(** X1. A user whose name is not empty-like passes [matchUsername] only
    with a field value strictly equal to that name; when the name is a
    string, the field value is that very string. *)
Theorem matchUsername_named_user
  (newDoc oldDoc newVal oldVal : value) (userCtx : UserCtx) :
  empty_like (name userCtx) = false ->
  (matchUsername tt newDoc oldDoc newVal oldVal userCtx = Returns
   <-> strict_eq (name userCtx) newVal = true)
  /\ (forall s, name userCtx = VStr s ->
        matchUsername tt newDoc oldDoc newVal oldVal userCtx = Returns ->
        newVal = VStr s).
Proof.
  intros Hname.
  assert (Hiff : matchUsername tt newDoc oldDoc newVal oldVal userCtx = Returns
                 <-> strict_eq (name userCtx) newVal = true).
  { unfold matchUsername. rewrite (not_empty_like_strict _ Hname).
    unfold strict_neq at 1.
    destruct (strict_eq (name userCtx) newVal); simpl;
      split; congruence. }
  split; [exact Hiff|].
  intros s Hs Hret. apply Hiff in Hret. rewrite Hs in Hret.
  now apply strict_eq_string.
Qed.

Lemma matchUsername_named_user_witness :
  empty_like (name {| name := VStr "alice" |}) = false
  /\ (matchUsername tt VNull VNull (VStr "alice") VNull
        {| name := VStr "alice" |} = Returns
      <-> strict_eq (VStr "alice") (VStr "alice") = true).
Proof.
  split; [reflexivity|].
  apply (matchUsername_named_user VNull VNull (VStr "alice") VNull
           {| name := VStr "alice" |}).
  reflexivity.
Defined.

(** X2. On an update, [uneditable] compares by identity: an object or an
    array with the same contents but another reference is rejected, and
    so is NaN kept as NaN; a string kept as it was passes. *)
Theorem uneditable_by_reference
  (newDoc oldDoc : value) (userCtx : UserCtx) :
  truthy oldDoc = true ->
  (forall r r' props, r <> r' ->
      uneditable tt newDoc oldDoc (VObj r props) (VObj r' props) userCtx
      = Throws "Field cannot be edited once created")
  /\ (forall r r' elems, r <> r' ->
      uneditable tt newDoc oldDoc (VArr r elems) (VArr r' elems) userCtx
      = Throws "Field cannot be edited once created")
  /\ uneditable tt newDoc oldDoc VNaN VNaN userCtx
     = Throws "Field cannot be edited once created"
  /\ (forall s,
      uneditable tt newDoc oldDoc (VStr s) (VStr s) userCtx = Returns).
Proof.
  intros Hold. unfold uneditable, strict_neq. rewrite Hold. simpl.
  repeat split.
  - intros r r' props Hne. apply Nat.eqb_neq in Hne. now rewrite Hne.
  - intros r r' elems Hne. apply Nat.eqb_neq in Hne. now rewrite Hne.
  - intros s. now rewrite String.eqb_refl.
Qed.

Lemma uneditable_by_reference_witness :
  truthy (VObj 7 []) = true
  /\ uneditable tt (VObj 8 []) (VObj 7 []) VNaN VNaN {| name := VNull |}
     = Throws "Field cannot be edited once created".
Proof.
  split; [reflexivity|].
  apply (uneditable_by_reference (VObj 8 []) (VObj 7 []) {| name := VNull |}).
  reflexivity.
Defined.

Section Stricter.
Variable getPropertyPath : value -> list string -> value.

(** X3. [usernameMatchesField] is the stricter check: whenever its
    validator returns, the validator of [matchUsername] returns on the
    value the path resolves to. *)
Theorem usernameMatchesField_stricter (path : path_arg)
  (newDoc oldDoc newValue oldValue : value) (userCtx : UserCtx) :
  usernameMatchesField getPropertyPath path
    newDoc oldDoc newValue oldValue userCtx = Returns ->
  matchUsername tt newDoc oldDoc
    (getPropertyPath newDoc (as_array path)) oldValue userCtx = Returns.
Proof.
  unfold usernameMatchesField, matchUsername.
  destruct (strict_neq (name userCtx)
              (getPropertyPath newDoc (as_array path))); [discriminate|].
  reflexivity.
Qed.

End Stricter.

Lemma usernameMatchesField_stricter_witness :
  usernameMatchesField Sample.owner_lookup (Segment "owner")
    Sample.alice_doc VNull VNull VNull {| name := VStr "alice" |} = Returns
  /\ matchUsername tt Sample.alice_doc VNull
       (Sample.owner_lookup Sample.alice_doc (as_array (Segment "owner")))
       VNull {| name := VStr "alice" |} = Returns.
Proof.
  split; [reflexivity|].
  apply (usernameMatchesField_stricter Sample.owner_lookup (Segment "owner")
           Sample.alice_doc VNull VNull VNull {| name := VStr "alice" |}).
  reflexivity.
Defined.

(** The converse fails: an anonymous user and an empty field pass
    [matchUsername] and not [usernameMatchesField]. *)
Example matchUsername_more_lenient :
  matchUsername tt VNull VNull (VStr "") VNull {| name := VNull |} = Returns
  /\ usernameMatchesField (fun _ _ => VStr "") (Segment "owner")
       VNull VNull VNull VNull {| name := VNull |}
     = Throws "username does not match field: owner".
Proof. split; reflexivity. Qed.

End ValidatorsMore.

(* ================================================================== *)
(** * Further properties of the markup utilities *)
(* ================================================================== *)

Module MarkupMore.
Import Js Render Measures JsFacts.

Lemma error_loop (errors : list Error) (html : string) :
  fold_left
    (fun html e =>
       html ++ ("<li class=" ++ quoted "error_msg" ++ ">"
                ++ match present (message e) with
                   | Some m => m
                   | None => toString e
                   end
                ++ "</li>"))
    errors html
  = html ++ error_items errors.
Proof.
  revert html.
  induction errors as [|e errors IH]; intros html; cbn [fold_left error_items].
  - now rewrite append_empty_r.
  - rewrite IH. unfold error_text. now rewrite !append_assoc.
Qed.

(** X4. [errorHTML] renders nothing for an empty list, and nothing but
    then; for a non-empty list it renders one [<ul class="errors">] with
    one item per error, in order, each showing the error's message or,
    when the message is absent or empty, its string form. *)
Theorem errorHTML_items (errors : list Error) :
  errorHTML errors
  = match errors with
    | [] => ""
    | _ :: _ =>
        "<ul class=" ++ quoted "errors" ++ ">"
        ++ error_items errors ++ "</ul>"
    end
  /\ (errorHTML errors = "" <-> errors = []).
Proof.
  destruct errors as [|e errors].
  - split; [reflexivity | split; reflexivity].
  - assert (Heq : errorHTML (e :: errors)
                  = "<ul class=" ++ quoted "errors" ++ ">"
                    ++ error_items (e :: errors) ++ "</ul>").
    { unfold errorHTML. rewrite error_loop. now rewrite !append_assoc. }
    split; [exact Heq|].
    split; [|discriminate].
    rewrite Heq. simpl. discriminate.
Qed.

Lemma substring_whole (s : string) : substring 0 (String.length s) s = s.
Proof. induction s as [|c s IH]; simpl; [reflexivity | now rewrite IH]. Qed.

Lemma substring_none (s : string) : substring 0 0 s = "".
Proof. now destruct s. Qed.

(** The shared expression, on a non-empty name: the first character
    upper-cased, the underscores of the rest replaced. *)
Lemma capitalize_cons (c : ascii) (s : string) :
  capitalize (String c s)
  = String (upper_ascii c) (replace_underscores s).
Proof.
  unfold capitalize, substr, substr_from. simpl.
  now rewrite substring_none, Nat.sub_0_r, substring_whole.
Qed.

Lemma replace_underscores_length (s : string) :
  String.length (replace_underscores s) = String.length s.
Proof. induction s as [|c s IH]; simpl; [reflexivity | now rewrite IH]. Qed.

Lemma replace_underscores_clean (s : string) :
  has_underscore (replace_underscores s) = false.
Proof.
  induction s as [|c s IH]; simpl; [reflexivity|].
  rewrite IH, orb_false_r.
  destruct (Ascii.eqb c "_") eqn:E; [reflexivity | exact E].
Qed.

Section Shapes.
Context {A : Type} `{Described A}.

(** X5. The class attribute built from [classes] is "field", then
    " error" when there are errors, then " required" when the field is
    required: always in that order, "field" always there. *)
Theorem class_attribute (field : A) (errors : list Error) :
  join " " (classes field errors)
  = "field"
    ++ match errors with [] => "" | _ :: _ => " error" end
    ++ (if required field then " required" else "")
  /\ hd "" (classes field errors) = "field".
Proof.
  unfold classes.
  destruct errors as [|e errors], (required field); split; reflexivity.
Qed.

(** X6. Without a usable custom label (absent or empty) and for a name
    of ASCII characters, the label text has the length of the name,
    holds no underscore after its first character, and starts with an
    underscore when the name does: only the underscores after the first
    character become spaces. *)
Theorem labelText_shape (field : A) (name : string) :
  present (label field) = None ->
  ascii_only name = true ->
  String.length (labelText field name) = String.length name
  /\ has_underscore (substr_from (labelText field name) 1) = false
  /\ (forall rest, name = String "_" rest ->
        labelText field name = String "_" (replace_underscores rest)).
Proof.
  intros Hlabel _. unfold labelText. rewrite Hlabel.
  destruct name as [|c s].
  - repeat split. intros rest Hrest. discriminate.
  - rewrite capitalize_cons. repeat split.
    + simpl. now rewrite replace_underscores_length.
    + unfold substr_from. simpl.
      rewrite Nat.sub_0_r, substring_whole.
      apply replace_underscores_clean.
    + intros rest Hrest. injection Hrest as -> ->. reflexivity.
Qed.

End Shapes.

Import Sample.

Lemma labelText_shape_witness :
  present (label text_field) = None
  /\ ascii_only "_first_name" = true
  /\ String.length (labelText text_field "_first_name")
     = String.length "_first_name".
Proof.
  split; [reflexivity|]. split; [reflexivity|].
  apply (labelText_shape text_field "_first_name"); reflexivity.
Defined.

Example labelText_leading_underscore :
  labelText text_field "_first_name" = "_first name".
Proof. reflexivity. Qed.

End MarkupMore.

(* ================================================================== *)
(** * Further properties of the registry *)
(* ================================================================== *)

Module RegistryMore.
Import Js Render Measures JsFacts RegistryFacts.

Lemma own_none_keys (reg : Registry) (name : string) :
  own reg name = None <-> ~ In name (keys reg).
Proof.
  induction reg as [|[k m] reg IH]; simpl.
  - tauto.
  - destruct (k =? name) eqn:E.
    + apply String.eqb_eq in E. split; [discriminate | tauto].
    + apply String.eqb_neq in E. rewrite IH. tauto.
Qed.

Lemma keys_put (reg : Registry) (name : string) (v : entry) :
  keys (put reg name v)
  = match own reg name with
    | Some _ => keys reg
    | None => (keys reg ++ [name])%list
    end.
Proof.
  induction reg as [|[k m] reg IH]; simpl; [reflexivity|].
  destruct (k =? name) eqn:E; simpl; [reflexivity|].
  rewrite IH. now destruct (own reg name).
Qed.

Lemma own_app (a b : Registry) (name : string) :
  own (a ++ b)%list name
  = match own a name with
    | Some m => Some m
    | None => own b name
    end.
Proof.
  induction a as [|[k m] a IH]; simpl; [reflexivity|].
  now destruct (k =? name).
Qed.

Lemma own_in_keys (reg : Registry) (name : string) :
  In name (keys reg) -> exists m, own reg name = Some m.
Proof.
  intros Hin. destruct (own reg name) as [m|] eqn:Hown; [eauto|].
  now apply own_none_keys in Hown.
Qed.

Lemma append_nonempty (a b : string) : a <> "" -> a ++ b <> "".
Proof. destruct a; [congruence | discriminate]. Qed.

(** A registry with an entry has a key to start the enumeration with. *)
Lemma enumerate_head (km : string * entry) (reg : Registry) :
  exists km' rest, enumerate (km :: reg) = km' :: rest.
Proof.
  unfold enumerate, other_entries. destruct km as [k m]. simpl.
  destruct (array_index k) as [n|].
  - destruct (index_entries reg) as [|[n' km'] l]; simpl.
    + eauto.
    + destruct (n <? n')%N; simpl; eauto.
  - destruct (index_entries reg) as [|[n' km'] l]; simpl; eauto.
Qed.

Section Emptiness.
Context `{Functions}.

(** Once the output has a character, the loop never returns the empty
    string. *)
Lemma for_in_nonempty (ks : list string) (rv : string) (w : world) :
  rv <> "" -> fst (for_in ks rv w) <> Val "".
Proof.
  revert rv w. induction ks as [|k ks IH]; intros rv w Hrv.
  - simpl. congruence.
  - simpl. unfold bind at 1. unfold emit, bind, get_registry.
    destruct (own (_initialization_markup w) k) as [m|].
    + destruct m as [s|f|fn]; simpl.
      * apply IH. now apply append_nonempty.
      * apply IH. now apply append_nonempty.
      * destruct (invoke fn w) as [[out|e] w']; simpl.
        -- apply IH. now apply append_nonempty.
        -- discriminate.
    + simpl. now apply IH.
Qed.

(** X7. [generateInitializationMarkup()] returns the empty string
    exactly when nothing is registered: every entry, even one whose
    markup is empty, contributes its newline. *)
Theorem generate_empty_iff (w : world) :
  fst (generateInitializationMarkup w) = Val ""
  <-> _initialization_markup w = [].
Proof.
  unfold generateInitializationMarkup, bind, get_registry.
  destruct (_initialization_markup w) as [|km reg] eqn:Hreg.
  - split; reflexivity.
  - split; [|discriminate]. intros Hout. exfalso. revert Hout.
    destruct (enumerate_head km reg) as ([k' m'] & rest & Henum).
    rewrite Henum. cbn [map fst for_in]. unfold bind at 1.
    assert (Hin : In k' (keys (_initialization_markup w))).
    { unfold keys. change k' with (fst (k', m')). apply in_map.
      apply in_enumerate. rewrite Hreg, Henum. now left. }
    destruct (own_in_keys _ _ Hin) as [m Hown].
    unfold emit, bind, get_registry. rewrite Hown.
    destruct m as [s|f|fn]; simpl.
    + apply for_in_nonempty. discriminate.
    + apply for_in_nonempty. discriminate.
    + destruct (invoke fn w) as [[out|e] w']; simpl.
      * apply for_in_nonempty. discriminate.
      * discriminate.
Qed.

End Emptiness.

Section Sequences.
Context `{Host}.

Lemma register_registry (name : string) (v : entry) (w : world) :
  _initialization_markup (snd (registerInitializationMarkup name v w))
  = if reads_truthy (_initialization_markup w) name
    then _initialization_markup w
    else put (_initialization_markup w) name v.
Proof.
  rewrite register_unfold.
  now destruct (reads_truthy (_initialization_markup w) name).
Qed.

Lemma register_all_cons (name : string) (v : entry)
  (rs : list (string * entry)) (w : world) :
  snd (register_all ((name, v) :: rs) w)
  = snd (register_all rs (snd (registerInitializationMarkup name v w))).
Proof.
  simpl. unfold bind. rewrite register_unfold.
  now destruct (reads_truthy (_initialization_markup w) name).
Qed.

(** One registration keeps the names unique and drops none. *)
Lemma register_keys (name : string) (v : entry) (w : world) :
  NoDup (keys (_initialization_markup w)) ->
  NoDup (keys (_initialization_markup
                 (snd (registerInitializationMarkup name v w))))
  /\ incl (keys (_initialization_markup w))
          (keys (_initialization_markup
                   (snd (registerInitializationMarkup name v w)))).
Proof.
  intros Hnodup. rewrite register_registry.
  destruct (reads_truthy (_initialization_markup w) name).
  - split; [exact Hnodup | apply incl_refl].
  - rewrite keys_put.
    destruct (own (_initialization_markup w) name) eqn:Hown.
    + split; [exact Hnodup | apply incl_refl].
    + split.
      * apply NoDup_app; [exact Hnodup | repeat constructor; simpl; tauto|].
        intros x Hx [<-|[]]. now apply own_none_keys in Hown.
      * apply incl_appl, incl_refl.
Qed.

(** X8. Whatever is registered, in whatever order, the names of the
    registry stay unique and no name is ever dropped. *)
Theorem registrations_keep_names (rs : list (string * entry)) (w : world) :
  NoDup (keys (_initialization_markup w)) ->
  NoDup (keys (_initialization_markup (snd (register_all rs w))))
  /\ incl (keys (_initialization_markup w))
          (keys (_initialization_markup (snd (register_all rs w)))).
Proof.
  revert w. induction rs as [|[name v] rs IH]; intros w Hnodup.
  - split; [exact Hnodup | apply incl_refl].
  - rewrite register_all_cons.
    destruct (register_keys name v w Hnodup) as [Hnd Hincl].
    destruct (IH _ Hnd) as [Hnd' Hincl'].
    split; [exact Hnd' | eapply incl_tran; eassumption].
Qed.

(** X9. A truthy entry is final: no later registration, under its name
    or another, changes or removes it. *)
Theorem truthy_entry_is_final (name : string) (m : entry)
  (rs : list (string * entry)) (w : world) :
  own (_initialization_markup w) name = Some m ->
  entry_truthy m = true ->
  own (_initialization_markup (snd (register_all rs w))) name = Some m.
Proof.
  intros Hown Htruthy. revert w Hown.
  induction rs as [|[n v] rs IH]; intros w Hown; [exact Hown|].
  rewrite register_all_cons. apply IH. rewrite register_registry.
  destruct (reads_truthy (_initialization_markup w) n) eqn:Hread;
    [exact Hown|].
  destruct (String.eqb_spec n name) as [->|Hne].
  - unfold reads_truthy in Hread. rewrite Hown in Hread. congruence.
  - now rewrite own_put_other.
Qed.

(** X10. A name the registry object inherits a truthy property for is
    never stored: from a registry without an own entry of that name, no
    sequence of registrations creates one. *)
Theorem inherited_name_never_stored (name : string)
  (rs : list (string * entry)) (w : world) :
  inherited name = true ->
  own (_initialization_markup w) name = None ->
  own (_initialization_markup (snd (register_all rs w))) name = None.
Proof.
  intros Hinh. revert w.
  induction rs as [|[n v] rs IH]; intros w Hown; [exact Hown|].
  rewrite register_all_cons. apply IH. rewrite register_registry.
  destruct (reads_truthy (_initialization_markup w) n) eqn:Hread;
    [exact Hown|].
  destruct (String.eqb_spec n name) as [->|Hne].
  - unfold reads_truthy in Hread. rewrite Hown in Hread. congruence.
  - now rewrite own_put_other.
Qed.

(** Registrations under new, distinct names that are not inherited are
    stored in the order they are made. *)
Lemma fresh_registrations (rs : list (string * entry)) (w : world) :
  (forall n, In n (keys rs) ->
     inherited n = false /\ own (_initialization_markup w) n = None) ->
  NoDup (keys rs) ->
  _initialization_markup (snd (register_all rs w))
  = (_initialization_markup w ++ rs)%list.
Proof.
  revert w. induction rs as [|[n v] rs IH]; intros w Hnew Hnodup.
  - simpl. now rewrite app_nil_r.
  - rewrite register_all_cons.
    destruct (Hnew n (or_introl eq_refl)) as [Hinh Hown].
    assert (Hreg : _initialization_markup
                     (snd (registerInitializationMarkup n v w))
                   = (_initialization_markup w ++ [(n, v)])%list).
    { rewrite register_registry. unfold reads_truthy.
      rewrite Hown, Hinh. now apply put_fresh. }
    inversion Hnodup as [|? ? Hnotin Hnodup']; subst.
    rewrite IH; [rewrite Hreg; now rewrite <- app_assoc | | exact Hnodup'].
    intros k Hk. destruct (Hnew k (or_intror Hk)) as [Hkinh Hkown].
    split; [exact Hkinh|].
    rewrite Hreg, own_app, Hkown. simpl.
    destruct (String.eqb_spec n k) as [->|Hne]; [contradiction | reflexivity].
Qed.

(** X11. Output order is registration order when no name is an array
    index: after registrations under new, distinct, non-inherited names,
    none of them nor of the earlier ones an array index, and with
    functions that are pure markup generators, the generated markup is
    the earlier entries' markup followed by the markup of each
    registered value, in the order of the calls, each after a newline. *)
Theorem registration_order `{Functions} (body : nat -> string)
  (rs : list (string * entry)) (w : world) :
  (forall n, In n (keys rs) ->
     inherited n = false /\ own (_initialization_markup w) n = None) ->
  NoDup (keys rs) ->
  NoDup (keys (_initialization_markup w)) ->
  Spec.no_index_names (_initialization_markup w ++ rs)%list ->
  Spec.pure_functions body (_initialization_markup w ++ rs)%list ->
  fst (generateInitializationMarkup (snd (register_all rs w)))
  = Val (Spec.generate body (_initialization_markup w)
         ++ Spec.generate body rs).
Proof.
  intros Hnew Hnodup Hnd Hno Hpure.
  pose proof (fresh_registrations rs w Hnew Hnodup) as Hreg.
  rewrite (generate_pure body).
  - simpl. rewrite Hreg, (enumerate_no_index _ Hno). apply f_equal.
    apply generate_app.
  - rewrite Hreg. unfold keys in *. rewrite map_app.
    apply NoDup_app; [exact Hnd | exact Hnodup|].
    intros x Hx Hx'. destruct (Hnew x Hx') as [_ Hown].
    now apply own_none_keys in Hown.
  - now rewrite Hreg.
Qed.

End Sequences.

Import Sample.

Lemma registrations_keep_names_witness :
  NoDup (keys (_initialization_markup fresh))
  /\ NoDup (keys (_initialization_markup
                    (snd (register_all two_entries fresh)))).
Proof.
  split; [apply NoDup_nil|].
  apply (registrations_keep_names two_entries fresh). apply NoDup_nil.
Defined.

Lemma truthy_entry_is_final_witness :
  own (_initialization_markup
         (snd (registerInitializationMarkup "first" (Markup "<z>") fresh)))
      "first" = Some (Markup "<z>")
  /\ entry_truthy (Markup "<z>") = true
  /\ own (_initialization_markup
            (snd (register_all two_entries
                    (snd (registerInitializationMarkup "first"
                            (Markup "<z>") fresh)))))
         "first" = Some (Markup "<z>").
Proof.
  split; [reflexivity|]. split; [reflexivity|].
  apply (truthy_entry_is_final "first" (Markup "<z>") two_entries);
    reflexivity.
Defined.

Lemma inherited_name_never_stored_witness :
  inherited "constructor" = true
  /\ own (_initialization_markup fresh) "constructor" = None
  /\ own (_initialization_markup
            (snd (register_all
                    (("constructor", Markup "<c>") :: two_entries) fresh)))
         "constructor" = None.
Proof.
  split; [reflexivity|]. split; [reflexivity|].
  apply (inherited_name_never_stored "constructor"); reflexivity.
Defined.

Lemma two_entries_names : NoDup (keys two_entries).
Proof. repeat constructor; simpl; intuition discriminate. Defined.

Lemma registration_order_witness :
  NoDup (keys two_entries)
  /\ fst (generateInitializationMarkup (snd (register_all two_entries fresh)))
     = Val (Spec.generate bodies (_initialization_markup fresh)
            ++ Spec.generate bodies two_entries).
Proof.
  split; [exact two_entries_names|].
  apply (registration_order bodies two_entries fresh).
  - intros n Hn. simpl in Hn.
    destruct Hn as [<-|[<-|[]]]; split; reflexivity.
  - exact two_entries_names.
  - apply NoDup_nil.
  - intros key m Hin. simpl in Hin.
    destruct Hin as [Heq|[Heq|[]]]; injection Heq as <- _; reflexivity.
  - intros key fn Hin. simpl in Hin.
    destruct Hin as [Heq|[Heq|[]]]; discriminate.
Defined.

End RegistryMore.

(* ================================================================== *)
(** * Further properties of the renderers *)
(* ================================================================== *)

Module RendererMore.
Import Js Render Measures JsFacts RegistryFacts RendererFacts TraversalFacts.

Section Calls.
Context `{Host} {F : Type} `{Form F}.

Local Open Scope Z_scope.

Lemma last_snoc (prefix : list string) (name : string) :
  _last (prefix ++ [name]) = Some name.
Proof.
  unfold _last. rewrite map_app. simpl. apply last_last.
Qed.

(** X12. [beginGroup] heads the group with its last path segment,
    capitalized, and tags it with the depth it has just entered; on an
    empty path it throws a TypeError, with [depth] already incremented. *)
Theorem beginGroup_heading (prefix : list string) (name : string) (w : world) :
  beginGroup table (prefix ++ [name]) w
  = (Val ("<tbody class=" ++ dq ++ "head level-" ++ string_of_Z (depth w + 1)
          ++ dq ++ "><tr><th colspan=" ++ dq ++ "3" ++ dq ++ ">"
          ++ capitalize name
          ++ "</th></tr></tbody><tbody class=" ++ dq ++ "group level-"
          ++ string_of_Z (depth w + 1) ++ dq ++ ">"),
     {| _initialization_markup := _initialization_markup w;
        depth := depth w + 1 |})
  /\ beginGroup div (prefix ++ [name]) w
     = (Val ("<div class=" ++ dq ++ "group level-"
             ++ string_of_Z (depth w + 1) ++ dq ++ "><div class=" ++ dq
             ++ "heading" ++ dq ++ ">" ++ capitalize name ++ "</div>"),
        {| _initialization_markup := _initialization_markup w;
           depth := depth w + 1 |})
  /\ (forall v : variant,
        beginGroup (renderer v) [] w
        = (Exn "TypeError",
           {| _initialization_markup := _initialization_markup w;
              depth := depth w + 1 |})).
Proof.
  split; [|split].
  - simpl. unfold table_beginGroup, bind, get_depth, set_depth, ret.
    rewrite last_snoc. cbn [depth _initialization_markup].
    unfold quoted. f_equal. f_equal. simpl.
    rewrite ?append_assoc. simpl. rewrite ?append_assoc. reflexivity.
  - simpl. unfold div_beginGroup, bind, get_depth, set_depth, ret.
    rewrite last_snoc. cbn [depth _initialization_markup].
    unfold quoted. f_equal. f_equal. simpl.
    rewrite ?append_assoc. simpl. rewrite ?append_assoc. reflexivity.
  - intros v. destruct v; reflexivity.
Qed.

(** X13. No visit of a field, an embed or an embedList changes
    [depth], in either renderer: only [start], [beginGroup] and
    [endGroup] move it. *)
Theorem leaf_keeps_depth (v : variant) (c : visit F) (w : world) :
  is_leaf c = true ->
  depth (snd (call (renderer v) c w)) = depth w.
Proof.
  intros Hleaf.
  destruct (leaf_call v c w Hleaf) as (html & w' & Hcall & Hd).
  now rewrite Hcall.
Qed.

(** X14. The renderers count and do not check: when a traversal reaches
    its end, [depth] has moved by the number of [beginGroup] calls minus
    the number of [endGroup] calls, balanced or not, below zero
    included. *)
Theorem depth_counts (v : variant) (cs : list (visit F)) (w w' : world) :
  finish (renderer v) cs w = Some w' ->
  depth w' = depth w + net_groups cs.
Proof.
  revert w. induction cs as [|c cs IH]; intros w Hfin.
  - simpl in *. injection Hfin as <-. lia.
  - cbn [finish] in Hfin.
    destruct c as [p|p|f p x raw errs|f p x raw errs|f p x raw errs].
    + destruct (beginGroup_call v p w) as (res & Hcall & _).
      rewrite Hcall in Hfin. destruct res as [html|e]; [|discriminate].
      apply IH in Hfin. simpl in *. lia.
    + destruct (endGroup_call v p w) as (html & Hcall).
      rewrite Hcall in Hfin. apply IH in Hfin. simpl in *. lia.
    + destruct (leaf_call v (Field f p x raw errs) w eq_refl)
        as (html & w1 & Hcall & Hd).
      rewrite Hcall in Hfin. apply IH in Hfin. simpl in *. lia.
    + destruct (leaf_call v (Embed f p x raw errs) w eq_refl)
        as (html & w1 & Hcall & Hd).
      rewrite Hcall in Hfin. apply IH in Hfin. simpl in *. lia.
    + destruct (leaf_call v (EmbedList f p x raw errs) w eq_refl)
        as (html & w1 & Hcall & Hd).
      rewrite Hcall in Hfin. apply IH in Hfin. simpl in *. lia.
Qed.

(** X15. On the table renderer, from a registry without the embed name
    (which is not inherited), a traversal whose groups are all named
    leaves exactly one entry under that name when it visits at least one
    embed or embedList field, however many, and none otherwise; the
    entries that were there stay in place before it. *)
Theorem table_embed_entry_once (cs : list (visit F)) (w : world) :
  inherited Spec.embed_name = false ->
  own (_initialization_markup w) Spec.embed_name = None ->
  groups_named cs = true ->
  _initialization_markup (snd (traverse table cs w))
  = (_initialization_markup w
     ++ if existsb is_embed cs
        then [(Spec.embed_name, Generator table_initializationMarkupForEmbed)]
        else [])%list
  /\ Spec.entries_named Spec.embed_name
       (_initialization_markup (snd (traverse table cs w)))
     = if existsb is_embed cs then 1%nat else 0%nat.
Proof.
  intros Hinh Hown Hnamed.
  rewrite (table_registers_once cs w Hinh Hown Hnamed).
  destruct (existsb is_embed cs).
  - split; [reflexivity | now apply entries_named_fresh].
  - rewrite app_nil_r. split; [reflexivity | now apply entries_named_absent].
Qed.

(** X16. [table.embedList] on any array: the opening markup, one unit
    per element in order, each holding the widget's markup for that
    element, then the closing markup with the one error list; an empty
    array gives the opening and the closing alone. *)
Theorem table_embedList_in_order (f : F) (path : list string) (ref : nat)
  (vs : list Js.value) (raw : Js.value) (errors : list Error) (w : world) :
  fst (embedList table f path (VArr ref vs) raw errors w)
  = Val (table_list_open f (join "." path)
           (join " " (slice (depth w) path))
         ++ Spec.units f (join "." path) raw table_unit vs
         ++ table_list_close errors)
  /\ fst (embedList table f path (VArr ref []) raw errors w)
     = Val (table_list_open f (join "." path)
              (join " " (slice (depth w) path))
            ++ table_list_close errors).
Proof.
  split.
  - simpl embedList.
    unfold table_embedList, bind, get_depth, ret. simpl.
    rewrite register_unfold.
    destruct (reads_truthy _ _); simpl;
      now rewrite table_loop_units, append_assoc.
  - simpl embedList.
    unfold table_embedList, bind, get_depth, ret. simpl.
    rewrite register_unfold.
    destruct (reads_truthy _ _); reflexivity.
Qed.

End Calls.

Import Sample.

Lemma leaf_keeps_depth_witness :
  is_leaf (Embed text_field ["a"] (VStr "x") (VStr "x") []) = true
  /\ depth (snd (call (renderer Table)
                   (Embed text_field ["a"] (VStr "x") (VStr "x") [])
                   {| _initialization_markup := []; depth := 3 |}))
     = 3%Z.
Proof.
  split; [reflexivity|].
  apply (leaf_keeps_depth Table
           (Embed text_field ["a"] (VStr "x") (VStr "x") [])
           {| _initialization_markup := []; depth := 3 |}).
  reflexivity.
Defined.

Lemma depth_counts_witness :
  finish (renderer Table) unopened_group (snd (start table fresh))
  = Some {| _initialization_markup := []; depth := -1 |}
  /\ depth {| _initialization_markup := []; depth := -1 |}
     = (depth (snd (start table fresh)) + net_groups unopened_group)%Z.
Proof.
  split; [reflexivity|].
  apply (depth_counts Table unopened_group). reflexivity.
Defined.

Lemma table_embed_entry_once_witness :
  inherited Spec.embed_name = false
  /\ own (_initialization_markup fresh) Spec.embed_name = None
  /\ groups_named comments_form = true
  /\ Spec.entries_named Spec.embed_name
       (_initialization_markup (snd (traverse table comments_form fresh)))
     = 1%nat.
Proof.
  split; [reflexivity|]. split; [reflexivity|]. split; [reflexivity|].
  apply (table_embed_entry_once comments_form fresh); reflexivity.
Defined.

End RendererMore.
